(** * Order packs calculator: the pack allocation of [client/main.go]

    A shallow embedding of [calculatePacks] and [calculatePacksRecursive]
    (methods of the [calculator] component) together with the properties of
    the allocation plan they leave in [c.packQuantities].

    Go's [int] is modelled as [Z] with the two's-complement wrap-around of a
    64-bit word written out; a run-time panic (index out of range, integer
    divide by zero) is an outcome of its own. *)

From Stdlib Require Import String ZArith List Bool Lia.
From Stdlib Require Import Permutation Sorted.
Import ListNotations.
Local Open Scope Z_scope.

(** ** Machine integers *)

Module GoInt.

Definition bits : Z := 64.
Definition modulus : Z := 2 ^ bits.
Definition half : Z := 2 ^ (bits - 1).
Definition maxInt : Z := half - 1.
Definition minInt : Z := - half.

(** The value an [int] holds after an operation whose exact result is [z]. *)
Definition wrap (z : Z) : Z := (z + half) mod modulus - half.

Definition inRange (z : Z) : Prop := minInt <= z <= maxInt.

Definition sub (x y : Z) : Z := wrap (x - y).
Definition mul (x y : Z) : Z := wrap (x * y).

End GoInt.

(** ** Outcomes of a call *)

Inductive panic : Type :=
| IndexOutOfRange
| DivideByZero.

(** [OutOfFuel] belongs to the model only: the recursion below is driven by
    a counter of the calls still allowed. *)
Inductive outcome (A : Type) : Type :=
| Done (a : A)
| Panic (p : panic)
| OutOfFuel.

Arguments Done {A} a.
Arguments Panic {A} p.
Arguments OutOfFuel {A}.

Definition bind {A B : Type} (m : outcome A) (k : A -> outcome B) : outcome B :=
  match m with
  | Done a => k a
  | Panic p => Panic p
  | OutOfFuel => OutOfFuel
  end.

Notation "x <- m ;; k" := (bind m (fun x => k))
  (at level 61, m at next level, right associativity).
Notation "' pat <- m ;; k" := (bind m (fun x => match x with pat => k end))
  (at level 61, pat pattern, m at next level, right associativity).

(** ** Data *)

Record Pack : Type := mkPack { ID : string; Size : Z }.

(** The field [Pack] of the source is [Pack_] here: the name is taken by
    the type. *)
Record PackQuantity : Type := mkPackQuantity { Pack_ : Z; Quantity : Z }.

Record calculator : Type := mkCalculator {
  packs : list Pack;
  currentPack : Pack;
  items : Z;
  packQuantities : list PackQuantity
}.

(** [len(s)] as an [int]. *)
Definition len {A : Type} (s : list A) : Z := Z.of_nat (length s).

(** [s[i]]: panics outside [0 <= i < len(s)]. *)
Definition index {A : Type} (s : list A) (i : Z) : outcome A :=
  if (i <? 0) || (i >=? len s) then Panic IndexOutOfRange
  else match nth_error s (Z.to_nat i) with
       | Some a => Done a
       | None => Panic IndexOutOfRange
       end.

(** [x / y] on [int]: truncated toward zero, panics on a zero divisor. *)
Definition quo (x y : Z) : outcome Z :=
  if y =? 0 then Panic DivideByZero else Done (GoInt.wrap (Z.quot x y)).

(** [pack.Size = v] on a local copy of a [Pack]. *)
Definition setSize (p : Pack) (v : Z) : Pack := mkPack (ID p) v.

(** [c.packQuantities = append(c.packQuantities, q)]. *)
Definition appendQuantity (c : calculator) (q : PackQuantity) : calculator :=
  mkCalculator (packs c) (currentPack c) (items c) (packQuantities c ++ [q]).

(** ** [calculatePacksRecursive] *)

(** Lines 222-237: read the pack at [packIndex] into a local copy, compute
    [packCount], apply the substitution at the last index, then record and
    deduct. Returns the receiver and the local [items]. *)
Definition takePacks (c : calculator) (items packIndex : Z)
  : outcome (calculator * Z) :=
  pack <- index (packs c) packIndex ;;
  packCount <- quo items (Size pack) ;;
  pack <- (if (packIndex =? len (packs c) - 1) && (GoInt.sub items (Size pack) >? 0)
           then prev <- index (packs c) (packIndex - 1) ;;
                Done (setSize pack (Size prev))
           else Done pack) ;;
  if packCount >? 0
  then Done (appendQuantity c (mkPackQuantity (Size pack) packCount),
             GoInt.sub items (GoInt.mul packCount (Size pack)))
  else Done (c, items).

(** Lines 243-250: the last pack is used once more for what is left. *)
Definition lastPack (c : calculator) (packIndex : Z) : outcome (calculator * Z) :=
  p <- index (packs c) packIndex ;;
  let nextPackSize := Size p in
  Done (appendQuantity c (mkPackQuantity nextPackSize 1), 0).

(** The whole method. Each call consumes one unit of [fuel]. The result is
    the receiver after the call and the value of the local [items] when the
    call returns (the callee's [items] is its own: Go passes it by value). *)
Fixpoint calculatePacksRecursive (fuel : nat) (c : calculator) (items packIndex : Z)
  : outcome (calculator * Z) :=
  match fuel with
  | O => OutOfFuel
  | S fuel' =>
    if (items <=? 0) || (packIndex >=? len (packs c)) then Done (c, items)
    else
      '(c, items) <- takePacks c items packIndex ;;
      if items >? 0 then
        if packIndex <? len (packs c) - 1 then
          '(c, _) <- calculatePacksRecursive fuel' c items (packIndex + 1) ;;
          Done (c, items)
        else lastPack c packIndex
      else Done (c, items)
  end.

(** ** [calculatePacks] *)

(** [sort.Slice(c.packs, less)] with [less i j := c.packs[i].Size >
    c.packs[j].Size]. The library sort is not stable; what it guarantees is
    a permutation in which no element is [less] than one before it. *)
Definition sliceSorter : Type := list Pack -> list Pack.

Definition bySizeDesc (a b : Pack) : Prop := Size b <= Size a.

Definition sortsBySizeDesc (sortSlice : sliceSorter) : Prop :=
  forall l, Permutation l (sortSlice l) /\ StronglySorted bySizeDesc (sortSlice l).

(** The event handler; its [ctx] and [e] arguments are not used. The first
    call is given one unit of fuel per pack and one for an empty catalog. *)
Definition calculatePacks (sortSlice : sliceSorter) (c : calculator)
  : outcome (calculator * Z) :=
  let c := mkCalculator (packs c) (currentPack c) (items c) [] in
  let c := mkCalculator (sortSlice (packs c)) (currentPack c) (items c)
                        (packQuantities c) in
  calculatePacksRecursive (S (length (packs c))) c (items c) 0.

(** A concrete sorter: insertion by decreasing size. *)
Fixpoint insertDesc (p : Pack) (l : list Pack) : list Pack :=
  match l with
  | [] => [p]
  | q :: l' => if Size q <=? Size p then p :: l else q :: insertDesc p l'
  end.

Definition sortDesc : sliceSorter := fold_right insertDesc [].

(** ** The allocation as a function of sizes and demand *)

Definition plan (r : outcome (calculator * Z)) : outcome (list PackQuantity) :=
  '(c, _) <- r ;; Done (packQuantities c).

Definition catalog (sizes : list Z) : list Pack := map (mkPack EmptyString) sizes.

(** The call [c.calculatePacksRecursive(c.items, 0)] that [calculatePacks]
    makes, on a receiver whose packs have the given sizes in the given order
    and whose [packQuantities] is [nil]. *)
Definition Allocate (sizes : list Z) (demand : Z) : outcome (list PackQuantity) :=
  let c := mkCalculator (catalog sizes) (mkPack EmptyString 0) demand [] in
  plan (calculatePacksRecursive (S (length (packs c))) c (items c) 0).

(** Items shipped by a plan, as a mathematical integer. *)
Definition shipped (p : list PackQuantity) : Z :=
  fold_right (fun e acc => Pack_ e * Quantity e + acc) 0 p.

Definition referenceCatalog : list Z := [5000; 2000; 1000; 500; 250].

(** A catalog as the data model has it: sizes that are positive [int]s, in
    descending order. *)
Definition properCatalog (l : list Pack) : Prop :=
  Forall (fun p => 0 < Size p <= GoInt.maxInt) l /\ StronglySorted bySizeDesc l.

(** Descending order on sizes. *)
Definition descZ (a b : Z) : Prop := b <= a.

(** An entry as the data model has it, for a catalog of the given sizes. *)
Definition entryOf (sizes : list Z) (e : PackQuantity) : Prop :=
  0 < Quantity e /\ In (Pack_ e) sizes.

(** Receivers that the method cannot tell apart, and outcomes alike. *)
Definition sameSizes (c1 c2 : calculator) : Prop :=
  map Size (packs c1) = map Size (packs c2) /\
  packQuantities c1 = packQuantities c2.

Definition agree (r1 r2 : outcome (calculator * Z)) : Prop :=
  match r1, r2 with
  | Done (c1, n1), Done (c2, n2) => sameSizes c1 c2 /\ n1 = n2
  | Panic p1, Panic p2 => p1 = p2
  | OutOfFuel, OutOfFuel => True
  | _, _ => False
  end.

(** A second sorter, which breaks ties the other way round. *)
Definition sortDescRev : sliceSorter := fun l => sortDesc (rev l).

(** Two receivers for the same order: one as an earlier run left it, one
    fresh, with the packs listed differently. *)
Definition staleReceiver : calculator :=
  mkCalculator [mkPack "a" 250; mkPack "b" 500; mkPack "c" 250]
               (mkPack "b" 500) 600 [mkPackQuantity 5000 7].

Definition freshReceiver : calculator :=
  mkCalculator [mkPack "x" 500; mkPack "y" 250; mkPack "z" 250]
               (mkPack EmptyString 0) 600 [].

(** A receiver [c] seen next to a receiver [c'] that lacks the first pack
    of [c] and the first entries [pre] of its plan, and outcomes alike. *)
Definition shifted (x : Pack) (pre : list PackQuantity) (c c' : calculator) : Prop :=
  packs c = x :: packs c' /\ packQuantities c = pre ++ packQuantities c'.

Definition shiftedOutcome (x : Pack) (pre : list PackQuantity)
           (r r' : outcome (calculator * Z)) : Prop :=
  match r, r' with
  | Done (c, n), Done (c', n') => shifted x pre c c' /\ n = n'
  | Panic e, Panic e' => e = e'
  | OutOfFuel, OutOfFuel => True
  | _, _ => False
  end.

(** What a successful run of lines 222-237 went through. *)
Inductive takePacksRun (c : calculator) (items packIndex : Z)
          (c' : calculator) (items' : Z) : Prop :=
| TakePacksRun (pack : Pack) (count size : Z)
    (run_index : index (packs c) packIndex = Done pack)
    (run_quo : quo items (Size pack) = Done count)
    (run_subst :
       (packIndex = len (packs c) - 1 /\ GoInt.sub items (Size pack) > 0 /\
        exists prev, index (packs c) (packIndex - 1) = Done prev /\ size = Size prev)
       \/ (~ (packIndex = len (packs c) - 1 /\ GoInt.sub items (Size pack) > 0) /\
           size = Size pack))
    (run_record :
       (count > 0 /\
        c' = appendQuantity c (mkPackQuantity size count) /\
        items' = GoInt.sub items (GoInt.mul count size))
       \/ (count <= 0 /\ c' = c /\ items' = items)).

(** * Basic facts *)

Module GoIntFacts.
Import GoInt.

Lemma wrap_inRange z : inRange z -> wrap z = z.
Proof.
  unfold inRange, wrap, minInt, maxInt, half, modulus, bits.
  intros H. rewrite Z.mod_small; lia.
Qed.

Lemma maxInt_pos : 0 < maxInt.
Proof. reflexivity. Qed.

End GoIntFacts.

Lemma index_Done_iff {A} (s : list A) i a :
  index s i = Done a <-> 0 <= i < len s /\ nth_error s (Z.to_nat i) = Some a.
Proof.
  unfold index. split.
  - destruct (i <? 0) eqn:E1; [discriminate|].
    destruct (i >=? len s) eqn:E2; [discriminate|]. simpl.
    destruct (nth_error s (Z.to_nat i)); [|discriminate].
    intros [= ->]. split; [lia | reflexivity].
  - intros [H ->].
    destruct (i <? 0) eqn:E1; [lia|].
    destruct (i >=? len s) eqn:E2; [lia|]. reflexivity.
Qed.

Lemma index_inside {A} (s : list A) i :
  0 <= i < len s -> exists a, index s i = Done a.
Proof.
  intros H. destruct (nth_error s (Z.to_nat i)) as [a|] eqn:E.
  - exists a. apply index_Done_iff. auto.
  - apply nth_error_None in E. unfold len in H. lia.
Qed.

Lemma index_never_OutOfFuel {A} (s : list A) i : index s i <> OutOfFuel.
Proof.
  unfold index. destruct ((i <? 0) || (i >=? len s)); [discriminate|].
  destruct (nth_error s (Z.to_nat i)); discriminate.
Qed.

Lemma index_In {A} (s : list A) i a : index s i = Done a -> In a s.
Proof. intros H. apply index_Done_iff in H. eapply nth_error_In, H. Qed.

Lemma quo_never_OutOfFuel x y : quo x y <> OutOfFuel.
Proof. unfold quo. destruct (y =? 0); discriminate. Qed.

Lemma takePacks_Done c items packIndex c' items' :
  takePacks c items packIndex = Done (c', items') ->
  takePacksRun c items packIndex c' items'.
Proof.
  unfold takePacks. intros H.
  destruct (index (packs c) packIndex) as [p| |] eqn:Ep; simpl in H; try discriminate.
  destruct (quo items (Size p)) as [n| |] eqn:Eq; simpl in H; try discriminate.
  destruct (packIndex =? len (packs c) - 1) eqn:E1;
    [destruct (GoInt.sub items (Size p) >? 0) eqn:E2|]; simpl in H.
  - destruct (index (packs c) (packIndex - 1)) as [q| |] eqn:Er; simpl in H;
      try discriminate.
    apply (TakePacksRun c items packIndex c' items' p n (Size q)); auto.
    + left. split; [lia|]. split; [lia|]. eauto.
    + destruct (n >? 0) eqn:E3; injection H as <- <-; [left|right]; (split; [lia|auto]).
  - apply (TakePacksRun c items packIndex c' items' p n (Size p)); auto.
    + right. split; [lia|auto].
    + destruct (n >? 0) eqn:E3; injection H as <- <-; [left|right]; (split; [lia|auto]).
  - apply (TakePacksRun c items packIndex c' items' p n (Size p)); auto.
    + right. split; [lia|auto].
    + destruct (n >? 0) eqn:E3; injection H as <- <-; [left|right]; (split; [lia|auto]).
Qed.

Lemma takePacks_never_OutOfFuel c items packIndex :
  takePacks c items packIndex <> OutOfFuel.
Proof.
  unfold takePacks.
  pose proof (index_never_OutOfFuel (packs c) packIndex) as H1.
  destruct (index (packs c) packIndex) as [p| |]; simpl; try easy.
  pose proof (quo_never_OutOfFuel items (Size p)) as H2.
  destruct (quo items (Size p)) as [n| |]; simpl; try easy.
  destruct ((packIndex =? len (packs c) - 1) && (GoInt.sub items (Size p) >? 0)); simpl.
  - pose proof (index_never_OutOfFuel (packs c) (packIndex - 1)) as H3.
    destruct (index (packs c) (packIndex - 1)); simpl; try easy.
    destruct (n >? 0); discriminate.
  - destruct (n >? 0); discriminate.
Qed.

(** Lines 222-237 touch nothing of the receiver but [packQuantities], to
    which they append at most one entry. *)
Lemma takePacks_frame c n packIndex c' n' :
  takePacks c n packIndex = Done (c', n') ->
  packs c' = packs c /\ currentPack c' = currentPack c /\ items c' = items c /\
  exists added, packQuantities c' = packQuantities c ++ added.
Proof.
  intros H. destruct (takePacks_Done _ _ _ _ _ H) as [p cnt sz _ _ _ Hrec].
  destruct Hrec as [(_ & -> & _) | (_ & -> & _)]; simpl.
  - repeat split. eexists; reflexivity.
  - repeat split. exists []. now rewrite app_nil_r.
Qed.

Lemma lastPack_Done c packIndex c' n' :
  lastPack c packIndex = Done (c', n') ->
  exists p, index (packs c) packIndex = Done p /\
            c' = appendQuantity c (mkPackQuantity (Size p) 1) /\ n' = 0.
Proof.
  unfold lastPack. destruct (index (packs c) packIndex) as [p| |]; simpl; try discriminate.
  intros [= <- <-]. eauto.
Qed.

Lemma lastPack_never_OutOfFuel c packIndex : lastPack c packIndex <> OutOfFuel.
Proof.
  unfold lastPack. pose proof (index_never_OutOfFuel (packs c) packIndex).
  destruct (index (packs c) packIndex); simpl; easy.
Qed.

(** One unfolding of the method, with the guard already decided. *)
Lemma calculatePacksRecursive_step fuel c n packIndex :
  0 < n -> packIndex < len (packs c) ->
  calculatePacksRecursive (S fuel) c n packIndex =
  '(c1, n1) <- takePacks c n packIndex ;;
  if n1 >? 0 then
    if packIndex <? len (packs c1) - 1 then
      '(c2, _) <- calculatePacksRecursive fuel c1 n1 (packIndex + 1) ;;
      Done (c2, n1)
    else lastPack c1 packIndex
  else Done (c1, n1).
Proof.
  intros Hn Hi. simpl.
  destruct (n <=? 0) eqn:E1; [lia|].
  destruct (packIndex >=? len (packs c)) eqn:E2; [lia|]. reflexivity.
Qed.

Lemma calculatePacksRecursive_guard fuel c n packIndex :
  n <= 0 \/ len (packs c) <= packIndex ->
  calculatePacksRecursive (S fuel) c n packIndex = Done (c, n).
Proof.
  intros H. simpl.
  destruct (n <=? 0) eqn:E1; [reflexivity|].
  destruct (packIndex >=? len (packs c)) eqn:E2; [reflexivity|]. lia.
Qed.

(** * Properties *)

(** C1: on the catalog 5000, 2000, 1000, 500, 250 the allocation of 1 and
    of 250 items is one pack of 250, of 251 items one pack of 500, and of
    501 items one pack of 500 followed by one pack of 250. *)
Theorem reference_plans :
  Allocate referenceCatalog 1 = Done [mkPackQuantity 250 1] /\
  Allocate referenceCatalog 250 = Done [mkPackQuantity 250 1] /\
  Allocate referenceCatalog 251 = Done [mkPackQuantity 500 1] /\
  Allocate referenceCatalog 501 = Done [mkPackQuantity 500 1; mkPackQuantity 250 1].
Proof. repeat split; vm_compute; reflexivity. Qed.

(** ** The receiver outside [packQuantities] *)

Lemma calculatePacksRecursive_frame fuel : forall c n packIndex c' n',
  calculatePacksRecursive fuel c n packIndex = Done (c', n') ->
  packs c' = packs c /\ currentPack c' = currentPack c /\ items c' = items c /\
  exists added, packQuantities c' = packQuantities c ++ added.
Proof.
  induction fuel as [|fuel IH]; intros c n k c' n' H; [discriminate|].
  destruct (Z.leb_spec n 0) as [Hn|Hn];
    [|destruct (Z.ltb_spec k (len (packs c))) as [Hk|Hk]].
  - rewrite calculatePacksRecursive_guard in H by auto. injection H as <- <-.
    repeat split. exists []. now rewrite app_nil_r.
  - rewrite calculatePacksRecursive_step in H by auto.
    destruct (takePacks c n k) as [[c1 n1]| |] eqn:Et; simpl in H; try discriminate.
    destruct (takePacks_frame _ _ _ _ _ Et) as (Hp & Hc & Hi & a1 & Hq).
    destruct (n1 >? 0).
    + destruct (k <? len (packs c1) - 1).
      * destruct (calculatePacksRecursive fuel c1 n1 (k + 1)) as [[c2 n2]| |] eqn:Er;
          simpl in H; try discriminate.
        injection H as <- <-.
        destruct (IH _ _ _ _ _ Er) as (Hp' & Hc' & Hi' & a2 & Hq').
        repeat split; try congruence.
        exists (a1 ++ a2). rewrite Hq', Hq. now rewrite app_assoc.
      * destruct (lastPack_Done _ _ _ _ H) as (p & _ & -> & _). simpl.
        repeat split; try congruence.
        exists (a1 ++ [mkPackQuantity (Size p) 1]). rewrite Hq. now rewrite app_assoc.
    + injection H as <- <-. repeat split; auto. eauto.
  - rewrite calculatePacksRecursive_guard in H by auto. injection H as <- <-.
    repeat split. exists []. now rewrite app_nil_r.
Qed.

(** C10: a call of [calculatePacksRecursive] that returns leaves [c.packs]
    as it found it: the substitution writes to the local copy [pack] only.
    (With [calculatePacks_packs] below: after [calculatePacks], [c.packs] is
    the sorted slice.) *)
Theorem calculatePacksRecursive_keeps_packs fuel c n packIndex c' n' :
  calculatePacksRecursive fuel c n packIndex = Done (c', n') ->
  packs c' = packs c.
Proof. intros H. apply (calculatePacksRecursive_frame _ _ _ _ _ _ H). Qed.

Lemma calculatePacksRecursive_keeps_packs_witness :
  let c := mkCalculator (catalog [500; 250]) (mkPack EmptyString 0) 251 [] in
  exists c' n', calculatePacksRecursive 2 c 251 0 = Done (c', n') /\
                packs c' = packs c.
Proof.
  intros c.
  exists (appendQuantity c (mkPackQuantity 500 1)), 251.
  split; [reflexivity|].
  apply (calculatePacksRecursive_keeps_packs 2 c 251 0 _ 251). reflexivity.
Defined.

Lemma calculatePacks_packs sortSlice c c' n' :
  calculatePacks sortSlice c = Done (c', n') ->
  packs c' = sortSlice (packs c) /\ currentPack c' = currentPack c /\
  items c' = items c.
Proof.
  unfold calculatePacks. intros H.
  apply calculatePacksRecursive_frame in H. simpl in H. tauto.
Qed.

(** ** The last pack *)

(** C6: at the last index, when something is left after the deduction, the
    call appends one entry, of quantity 1 and of the size stored in
    [c.packs] at that index, leaves its [items] at 0 and returns without
    calling itself. *)
Theorem last_index_remainder fuel c n packIndex c1 n1 :
  0 < n ->
  0 <= packIndex ->
  packIndex = len (packs c) - 1 ->
  takePacks c n packIndex = Done (c1, n1) ->
  0 < n1 ->
  exists p,
    index (packs c) packIndex = Done p /\
    calculatePacksRecursive (S fuel) c n packIndex =
      Done (mkCalculator (packs c) (currentPack c) (items c)
                         (packQuantities c1 ++ [mkPackQuantity (Size p) 1]), 0).
Proof.
  intros Hn Hk0 Hk Ht Hn1.
  destruct (takePacks_frame _ _ _ _ _ Ht) as (Hp & Hc & Hi & _).
  destruct (index_inside (packs c) packIndex ltac:(lia)) as [p Hidx].
  exists p. split; [exact Hidx|].
  rewrite calculatePacksRecursive_step by lia. rewrite Ht. simpl.
  destruct (n1 >? 0) eqn:E1; [|lia].
  destruct (packIndex <? len (packs c1) - 1) eqn:E2; [rewrite Hp in E2; lia|].
  unfold lastPack. rewrite Hp, Hidx. simpl.
  unfold appendQuantity. now rewrite Hp, Hc, Hi.
Qed.

Lemma last_index_remainder_witness :
  let c := mkCalculator (catalog referenceCatalog) (mkPack EmptyString 0) 1 [] in
  exists p,
    index (packs c) 4 = Done p /\
    calculatePacksRecursive 1 c 1 4 =
      Done (mkCalculator (packs c) (currentPack c) (items c)
                         ([] ++ [mkPackQuantity (Size p) 1]), 0).
Proof.
  intros c.
  apply (last_index_remainder 0 c 1 4 c 1); try reflexivity; lia.
Defined.

(** ** The substitution at the last index *)

Lemma quo_positive n s :
  0 < s -> 0 <= n <= GoInt.maxInt -> quo n s = Done (n / s) /\ 0 <= n / s <= n.
Proof.
  intros Hs Hn.
  assert (Hq : 0 <= n / s <= n).
  { split; [apply Z.div_pos; lia|].
    apply Z.div_le_upper_bound; nia. }
  split; [|exact Hq].
  unfold quo. destruct (s =? 0) eqn:E; [lia|].
  rewrite Z.quot_div_nonneg by lia.
  rewrite GoIntFacts.wrap_inRange; [reflexivity|].
  unfold GoInt.inRange. pose proof GoIntFacts.maxInt_pos.
  unfold GoInt.minInt, GoInt.maxInt in *. lia.
Qed.

Lemma sub_positive n s :
  0 <= s -> 0 <= n <= GoInt.maxInt -> s <= GoInt.maxInt -> GoInt.sub n s = n - s.
Proof.
  intros Hs Hn Hs'. unfold GoInt.sub. apply GoIntFacts.wrap_inRange.
  unfold GoInt.inRange, GoInt.minInt, GoInt.maxInt in *. lia.
Qed.

(** C2: when the substitution applies (last index, more left than one
    smallest pack), the entry appended carries the size of the pack before
    the last one and the quantity obtained from the smallest size, and that
    quantity times the substituted size is what is deducted. *)
Theorem substitution_keeps_count c n packIndex smallest previous :
  packIndex = len (packs c) - 1 ->
  index (packs c) packIndex = Done smallest ->
  index (packs c) (packIndex - 1) = Done previous ->
  0 < Size smallest ->
  n <= GoInt.maxInt ->
  0 < n - Size smallest ->
  takePacks c n packIndex =
    Done (mkCalculator (packs c) (currentPack c) (items c)
            (packQuantities c ++ [mkPackQuantity (Size previous) (n / Size smallest)]),
          GoInt.sub n (GoInt.mul (n / Size smallest) (Size previous))).
Proof.
  intros Hk Hs Hp Hpos Hmax Hgt.
  destruct (quo_positive n (Size smallest) Hpos ltac:(lia)) as [Hq Hb].
  unfold takePacks. rewrite Hs. simpl. rewrite Hq. simpl.
  rewrite sub_positive by lia.
  destruct (packIndex =? len (packs c) - 1) eqn:E1; [|lia].
  destruct (n - Size smallest >? 0) eqn:E2; [|lia]. simpl.
  rewrite Hp. simpl.
  assert (1 <= n / Size smallest) by (apply Z.div_le_lower_bound; lia).
  destruct (n / Size smallest >? 0) eqn:E3; [|lia]. reflexivity.
Qed.

Lemma substitution_keeps_count_witness :
  takePacks (mkCalculator (catalog [1000; 250]) (mkPack EmptyString 0) 751 []) 751 1 =
    Done (mkCalculator (catalog [1000; 250]) (mkPack EmptyString 0) 751
            [mkPackQuantity 1000 3], -2249).
Proof.
  apply (substitution_keeps_count
           (mkCalculator (catalog [1000; 250]) (mkPack EmptyString 0) 751 [])
           751 1 (mkPack EmptyString 250) (mkPack EmptyString 1000));
    try reflexivity.
  discriminate.
Defined.

(** ** A catalog of one size *)

Lemma single_size_takePacks_panics s d :
  0 < s -> s < d -> d <= GoInt.maxInt ->
  takePacks (mkCalculator (catalog [s]) (mkPack EmptyString 0) d []) d 0 =
    Panic IndexOutOfRange.
Proof.
  intros Hs Hd Hmax.
  destruct (quo_positive d s Hs ltac:(lia)) as [Hq Hb].
  unfold takePacks. simpl packs. unfold index at 1. simpl. rewrite Hq. simpl.
  rewrite sub_positive by lia.
  destruct (d - s >? 0) eqn:E; [|lia]. reflexivity.
Qed.

(** C3: with the single size 250 and 251 items the condition of the
    substitution holds at index 0, [c.packs[-1]] is evaluated and the call
    panics. *)
Theorem single_size_251_panics :
  takePacks (mkCalculator (catalog [250]) (mkPack EmptyString 0) 251 []) 251 0 =
    Panic IndexOutOfRange /\
  Allocate [250] 251 = Panic IndexOutOfRange.
Proof. split; reflexivity. Qed.

(** C4: with a single size [s] and more than [s] items no plan is produced:
    the call panics. *)
Theorem single_size_no_plan s d :
  0 < s -> s < d -> d <= GoInt.maxInt ->
  Allocate [s] d = Panic IndexOutOfRange.
Proof.
  intros Hs Hd Hmax. unfold Allocate. cbv zeta. simpl items. simpl packs.
  rewrite calculatePacksRecursive_step by (simpl; unfold len; simpl; lia).
  fold (catalog [s]).
  rewrite single_size_takePacks_panics by assumption. reflexivity.
Qed.

Lemma single_size_no_plan_witness : Allocate [250] 251 = Panic IndexOutOfRange.
Proof.
  apply (single_size_no_plan 250 251); [reflexivity | reflexivity | discriminate].
Defined.

(** ** Nothing to allocate *)

(** C5: the plan is empty when no item is demanded, whatever the catalog,
    and when the catalog is empty, whatever the demand. *)
Theorem empty_plan sizes demand :
  demand <= 0 \/ sizes = [] -> Allocate sizes demand = Done [].
Proof.
  intros H. unfold Allocate. cbv zeta.
  rewrite calculatePacksRecursive_guard; [reflexivity|].
  simpl. destruct H as [H | ->]; [left; exact H | right; unfold len; simpl; lia].
Qed.

Lemma empty_plan_witness :
  Allocate referenceCatalog (-3) = Done [] /\ Allocate [] 10 = Done [].
Proof.
  split.
  - apply (empty_plan referenceCatalog (-3)). left. discriminate.
  - apply (empty_plan [] 10). right. reflexivity.
Defined.

(** ** The number of calls *)

Lemma enough_fuel fuel : forall c n packIndex,
  (1 <= fuel)%nat ->
  len (packs c) - packIndex <= Z.of_nat fuel ->
  calculatePacksRecursive fuel c n packIndex <> OutOfFuel.
Proof.
  induction fuel as [|fuel IH]; intros c n k H1 Hlen; [lia|].
  destruct (Z.leb_spec n 0) as [Hn|Hn];
    [|destruct (Z.ltb_spec k (len (packs c))) as [Hk|Hk]].
  - rewrite calculatePacksRecursive_guard by auto. discriminate.
  - rewrite calculatePacksRecursive_step by auto.
    pose proof (takePacks_never_OutOfFuel c n k) as Hne.
    destruct (takePacks c n k) as [[c1 n1]| |] eqn:Et; simpl; try easy.
    destruct (takePacks_frame _ _ _ _ _ Et) as (Hp & _).
    destruct (n1 >? 0); [|discriminate].
    destruct (Z.ltb_spec k (len (packs c1) - 1)) as [Hlt|Hge].
    + assert (Hrec : calculatePacksRecursive fuel c1 n1 (k + 1) <> OutOfFuel).
      { apply IH; rewrite ?Hp in *; lia. }
      destruct (calculatePacksRecursive fuel c1 n1 (k + 1)) as [[c2 n2]| |];
        simpl; easy.
    + apply lastPack_never_OutOfFuel.
  - rewrite calculatePacksRecursive_guard by auto. discriminate.
Qed.

Lemma more_fuel fuel : forall c n packIndex extra,
  calculatePacksRecursive fuel c n packIndex <> OutOfFuel ->
  calculatePacksRecursive (fuel + extra) c n packIndex =
  calculatePacksRecursive fuel c n packIndex.
Proof.
  induction fuel as [|fuel IH]; intros c n k extra H; [now elim H|].
  change (S fuel + extra)%nat with (S (fuel + extra)).
  destruct (Z.leb_spec n 0) as [Hn|Hn];
    [|destruct (Z.ltb_spec k (len (packs c))) as [Hk|Hk]].
  - now rewrite !calculatePacksRecursive_guard by auto.
  - rewrite calculatePacksRecursive_step in H by auto.
    rewrite !calculatePacksRecursive_step by auto.
    destruct (takePacks c n k) as [[c1 n1]| |]; try reflexivity.
    unfold bind in H |- *.
    destruct (n1 >? 0); [|reflexivity].
    destruct (k <? len (packs c1) - 1); [|reflexivity].
    rewrite IH; [reflexivity|].
    intros E. rewrite E in H. now apply H.
  - now rewrite !calculatePacksRecursive_guard by auto.
Qed.

(** C7: on a catalog that is not empty, as many calls as there are packs
    are enough for [calculatePacksRecursive(items, 0)] to come to its end,
    whatever [items] is; allowing more calls changes nothing. *)
Theorem calls_bounded_by_catalog_length c n :
  packs c <> [] ->
  calculatePacksRecursive (length (packs c)) c n 0 <> OutOfFuel /\
  forall extra,
    calculatePacksRecursive (length (packs c) + extra) c n 0 =
    calculatePacksRecursive (length (packs c)) c n 0.
Proof.
  intros Hne.
  assert (H : calculatePacksRecursive (length (packs c)) c n 0 <> OutOfFuel).
  { apply enough_fuel.
    - destruct (packs c); [now elim Hne | simpl; lia].
    - unfold len. lia. }
  split; [exact H|]. intros extra. now apply more_fuel.
Qed.

Lemma calls_bounded_by_catalog_length_witness :
  let c := mkCalculator (catalog referenceCatalog) (mkPack EmptyString 0) 1 [] in
  calculatePacksRecursive 5 c 1 0 <> OutOfFuel /\
  forall extra,
    calculatePacksRecursive (5 + extra) c 1 0 = calculatePacksRecursive 5 c 1 0.
Proof.
  intros c.
  apply (calls_bounded_by_catalog_length c 1). discriminate.
Defined.

(** The bound is reached: one item on the reference catalog takes a call
    per pack. *)
Example calls_bound_reached :
  let c := mkCalculator (catalog referenceCatalog) (mkPack EmptyString 0) 1 [] in
  calculatePacksRecursive 4 c 1 0 = OutOfFuel /\
  plan (calculatePacksRecursive 5 c 1 0) = Done [mkPackQuantity 250 1].
Proof. split; reflexivity. Qed.

Lemma Allocate_fuel sizes demand extra :
  Allocate sizes demand =
  plan (calculatePacksRecursive (S (length sizes) + extra)
          (mkCalculator (catalog sizes) (mkPack EmptyString 0) demand []) demand 0).
Proof.
  unfold Allocate. cbv zeta. simpl packs. simpl items.
  unfold catalog. rewrite length_map.
  rewrite more_fuel; [reflexivity|].
  apply enough_fuel; [lia|]. simpl. unfold len. rewrite length_map. lia.
Qed.

(** ** Entries of the plan *)

Lemma index_Size_In (l : list Pack) i p :
  index l i = Done p -> In (Size p) (map Size l).
Proof. intros H. apply in_map. eapply index_In, H. Qed.

Lemma takePacks_entries c n packIndex c' n' :
  takePacks c n packIndex = Done (c', n') ->
  Forall (entryOf (map Size (packs c))) (packQuantities c) ->
  Forall (entryOf (map Size (packs c))) (packQuantities c').
Proof.
  intros H Hall.
  destruct (takePacks_Done _ _ _ _ _ H) as [p cnt sz Hidx _ Hsub Hrec].
  destruct Hrec as [(Hcnt & -> & _) | (_ & -> & _)]; [|exact Hall].
  simpl. apply Forall_app. split; [exact Hall|].
  constructor; [|constructor]. split; simpl; [lia|].
  destruct Hsub as [(_ & _ & q & Hq & ->) | (_ & ->)]; eapply index_Size_In; eauto.
Qed.

Lemma calculatePacksRecursive_entries fuel : forall c n packIndex c' n',
  calculatePacksRecursive fuel c n packIndex = Done (c', n') ->
  Forall (entryOf (map Size (packs c))) (packQuantities c) ->
  Forall (entryOf (map Size (packs c))) (packQuantities c').
Proof.
  induction fuel as [|fuel IH]; intros c n k c' n' H Hall; [discriminate|].
  destruct (Z.leb_spec n 0) as [Hn|Hn];
    [|destruct (Z.ltb_spec k (len (packs c))) as [Hk|Hk]].
  - rewrite calculatePacksRecursive_guard in H by auto. now injection H as <- <-.
  - rewrite calculatePacksRecursive_step in H by auto.
    destruct (takePacks c n k) as [[c1 n1]| |] eqn:Et; simpl in H; try discriminate.
    pose proof (takePacks_entries _ _ _ _ _ Et Hall) as Hall1.
    destruct (takePacks_frame _ _ _ _ _ Et) as (Hp & _).
    destruct (n1 >? 0); [|now injection H as <- <-].
    destruct (k <? len (packs c1) - 1).
    + destruct (calculatePacksRecursive fuel c1 n1 (k + 1)) as [[c2 n2]| |] eqn:Er;
        simpl in H; try discriminate.
      injection H as <- <-. rewrite <- Hp. eapply IH; [exact Er|]. now rewrite Hp.
    + destruct (lastPack_Done _ _ _ _ H) as (p & Hidx & -> & _). simpl.
      apply Forall_app. split; [exact Hall1|].
      constructor; [|constructor]. split; simpl; [lia|].
      rewrite <- Hp. eapply index_Size_In, Hidx.
  - rewrite calculatePacksRecursive_guard in H by auto. now injection H as <- <-.
Qed.

Lemma Size_catalog sizes : map Size (catalog sizes) = sizes.
Proof.
  unfold catalog. rewrite map_map. simpl. apply map_id.
Qed.

(** C8: in a plan that [Allocate] returns every quantity is positive and
    every pack size is one of the sizes of the catalog. *)
Theorem plan_entries sizes demand p :
  Allocate sizes demand = Done p ->
  Forall (fun e => 0 < Quantity e /\ In (Pack_ e) sizes) p.
Proof.
  unfold Allocate, plan. cbv zeta. simpl packs. simpl items.
  destruct (calculatePacksRecursive _ _ _ _) as [[c' n']| |] eqn:E; simpl;
    try discriminate.
  intros [= <-].
  apply calculatePacksRecursive_entries in E; [|constructor].
  simpl in E. rewrite Size_catalog in E. exact E.
Qed.

Lemma plan_entries_witness :
  Forall (fun e => 0 < Quantity e /\ In (Pack_ e) referenceCatalog)
         [mkPackQuantity 500 1; mkPackQuantity 250 1].
Proof.
  apply (plan_entries referenceCatalog 501). reflexivity.
Defined.

(** ** Determinism *)

Lemma desc_head_max a l x :
  StronglySorted descZ (a :: l) -> In x (a :: l) -> x <= a.
Proof.
  intros Hs Hin. apply StronglySorted_inv in Hs as [_ Hall].
  destruct Hin as [<- | Hin]; [lia|].
  rewrite Forall_forall in Hall. now apply Hall.
Qed.

(** A descending list is determined by its elements. *)
Lemma desc_unique : forall l1 l2,
  StronglySorted descZ l1 -> StronglySorted descZ l2 ->
  Permutation l1 l2 -> l1 = l2.
Proof.
  induction l1 as [|a l1 IH]; intros l2 H1 H2 HP.
  - now apply Permutation_nil in HP.
  - destruct l2 as [|b l2]; [now apply Permutation_sym, Permutation_nil in HP|].
    assert (Hab : a = b).
    { assert (b <= a).
      { apply (desc_head_max a l1); [exact H1|].
        eapply Permutation_in; [apply Permutation_sym, HP | now left]. }
      assert (a <= b).
      { apply (desc_head_max b l2); [exact H2|].
        eapply Permutation_in; [exact HP | now left]. }
      lia. }
    subst b. f_equal.
    apply IH.
    + now apply StronglySorted_inv in H1.
    + now apply StronglySorted_inv in H2.
    + eapply Permutation_cons_inv, HP.
Qed.

Lemma bySizeDesc_sizes l :
  StronglySorted bySizeDesc l -> StronglySorted descZ (map Size l).
Proof.
  induction 1 as [|a l Hs IH Hall]; simpl; constructor; [exact IH|].
  apply Forall_map. exact Hall.
Qed.

Lemma sorted_sizes_unique sort1 sort2 l1 l2 :
  sortsBySizeDesc sort1 -> sortsBySizeDesc sort2 ->
  Permutation (map Size l1) (map Size l2) ->
  map Size (sort1 l1) = map Size (sort2 l2).
Proof.
  intros H1 H2 HP.
  destruct (H1 l1) as [P1 S1]. destruct (H2 l2) as [P2 S2].
  apply desc_unique; try now apply bySizeDesc_sizes.
  eapply perm_trans; [apply Permutation_sym, Permutation_map, P1|].
  eapply perm_trans; [exact HP|]. apply Permutation_map, P2.
Qed.

Lemma sameSizes_len c1 c2 : sameSizes c1 c2 -> len (packs c1) = len (packs c2).
Proof.
  intros [H _]. unfold len. f_equal.
  rewrite <- (length_map Size (packs c1)), H. apply length_map.
Qed.

Lemma sameSizes_index c1 c2 i :
  sameSizes c1 c2 ->
  match index (packs c1) i, index (packs c2) i with
  | Done p1, Done p2 => Size p1 = Size p2
  | Panic e1, Panic e2 => e1 = e2
  | _, _ => False
  end.
Proof.
  intros H. pose proof (sameSizes_len _ _ H) as Hlen. destruct H as [H _].
  unfold index. rewrite <- Hlen.
  destruct ((i <? 0) || (i >=? len (packs c1))); [reflexivity|].
  pose proof (nth_error_map Size (Z.to_nat i) (packs c1)) as E1.
  pose proof (nth_error_map Size (Z.to_nat i) (packs c2)) as E2.
  rewrite H, E2 in E1.
  destruct (nth_error (packs c1) (Z.to_nat i)), (nth_error (packs c2) (Z.to_nat i));
    simpl in E1; congruence.
Qed.

Lemma sameSizes_append c1 c2 q :
  sameSizes c1 c2 -> sameSizes (appendQuantity c1 q) (appendQuantity c2 q).
Proof. intros [H1 H2]. split; simpl; congruence. Qed.

Lemma takePacks_agree c1 c2 n packIndex :
  sameSizes c1 c2 -> agree (takePacks c1 n packIndex) (takePacks c2 n packIndex).
Proof.
  intros H. unfold takePacks.
  pose proof (sameSizes_index c1 c2 packIndex H) as Hi.
  pose proof (sameSizes_index c1 c2 (packIndex - 1) H) as Hj.
  rewrite <- (sameSizes_len _ _ H).
  destruct (index (packs c1) packIndex) as [p1| |],
           (index (packs c2) packIndex) as [p2| |]; simpl; try easy.
  rewrite <- Hi.
  destruct (quo n (Size p1)) as [cnt| |]; simpl; try easy.
  destruct ((packIndex =? len (packs c1) - 1) && (GoInt.sub n (Size p1) >? 0)).
  - destruct (index (packs c1) (packIndex - 1)) as [q1| |],
             (index (packs c2) (packIndex - 1)) as [q2| |]; simpl; try easy.
    rewrite <- Hj.
    destruct (cnt >? 0); simpl; (split; [|reflexivity]); auto using sameSizes_append.
  - simpl. rewrite <- Hi.
    destruct (cnt >? 0); simpl; (split; [|reflexivity]); auto using sameSizes_append.
Qed.

Lemma lastPack_agree c1 c2 packIndex :
  sameSizes c1 c2 -> agree (lastPack c1 packIndex) (lastPack c2 packIndex).
Proof.
  intros H. unfold lastPack.
  pose proof (sameSizes_index c1 c2 packIndex H) as Hi.
  destruct (index (packs c1) packIndex) as [p1| |],
           (index (packs c2) packIndex) as [p2| |]; simpl; try easy.
  rewrite <- Hi. split; [|reflexivity]. now apply sameSizes_append.
Qed.

Lemma calculatePacksRecursive_agree fuel : forall c1 c2 n packIndex,
  sameSizes c1 c2 ->
  agree (calculatePacksRecursive fuel c1 n packIndex)
        (calculatePacksRecursive fuel c2 n packIndex).
Proof.
  induction fuel as [|fuel IH]; intros c1 c2 n k H; [exact I|].
  pose proof (sameSizes_len _ _ H) as Hlen.
  destruct (Z.leb_spec n 0) as [Hn|Hn];
    [|destruct (Z.ltb_spec k (len (packs c1))) as [Hk|Hk]].
  - rewrite !calculatePacksRecursive_guard by auto. now split.
  - rewrite !calculatePacksRecursive_step by (rewrite <- ?Hlen; auto).
    pose proof (takePacks_agree c1 c2 n k H) as Ht.
    destruct (takePacks c1 n k) as [[d1 n1]| |], (takePacks c2 n k) as [[d2 n2]| |];
      simpl in Ht |- *; try easy.
    destruct Ht as [Hd <-].
    destruct (n1 >? 0); [|now split].
    rewrite <- (sameSizes_len _ _ Hd).
    destruct (k <? len (packs d1) - 1); [|now apply lastPack_agree].
    specialize (IH d1 d2 n1 (k + 1) Hd).
    destruct (calculatePacksRecursive fuel d1 n1 (k + 1)) as [[e1 m1]| |],
             (calculatePacksRecursive fuel d2 n1 (k + 1)) as [[e2 m2]| |];
      simpl in IH |- *; try easy; now split.
  - rewrite !calculatePacksRecursive_guard by (rewrite <- ?Hlen; auto). now split.
Qed.

Lemma agree_plan r1 r2 : agree r1 r2 -> plan r1 = plan r2.
Proof.
  destruct r1 as [[c1 n1]| |], r2 as [[c2 n2]| |]; simpl; try easy.
  - intros [[_ ->] _]. reflexivity.
  - now intros ->.
Qed.

(** The plan is a function of the number of items and of the sizes in the
    catalog: neither the entries left by an earlier run, nor the order or the
    identifiers of the packs, nor the choices of the sort among packs of
    equal size have a part in it. *)
Lemma calculatePacks_plan sort1 sort2 c1 c2 :
  sortsBySizeDesc sort1 -> sortsBySizeDesc sort2 ->
  items c1 = items c2 ->
  Permutation (map Size (packs c1)) (map Size (packs c2)) ->
  plan (calculatePacks sort1 c1) = plan (calculatePacks sort2 c2).
Proof.
  intros H1 H2 Hi HP. apply agree_plan. unfold calculatePacks.
  cbn [packs items currentPack packQuantities].
  pose proof (sorted_sizes_unique sort1 sort2 _ _ H1 H2 HP) as Hs.
  rewrite Hi.
  replace (length (sort1 (packs c1))) with (length (sort2 (packs c2))).
  - apply calculatePacksRecursive_agree. split; [exact Hs | reflexivity].
  - rewrite <- (length_map Size (sort2 (packs c2))), <- Hs. apply length_map.
Qed.

Lemma insertDesc_perm p l : Permutation (p :: l) (insertDesc p l).
Proof.
  induction l as [|q l IH]; simpl; [reflexivity|].
  destruct (Size q <=? Size p); [reflexivity|].
  eapply perm_trans; [apply perm_swap|]. now apply perm_skip.
Qed.

Lemma insertDesc_sorted p l :
  StronglySorted bySizeDesc l -> StronglySorted bySizeDesc (insertDesc p l).
Proof.
  induction 1 as [|q l Hs IH Hall]; simpl.
  - repeat constructor.
  - destruct (Z.leb_spec (Size q) (Size p)) as [Hle|Hlt].
    + constructor; [now constructor|].
      constructor; [exact Hle|].
      eapply Forall_impl; [|exact Hall]. unfold bySizeDesc. intros; lia.
    + constructor; [exact IH|].
      eapply Permutation_Forall; [apply insertDesc_perm|].
      constructor; [unfold bySizeDesc; lia | exact Hall].
Qed.

Lemma sortDesc_sorts : sortsBySizeDesc sortDesc.
Proof.
  intros l. induction l as [|p l [IHp IHs]]; simpl.
  - split; constructor.
  - split.
    + eapply perm_trans; [apply perm_skip, IHp | apply insertDesc_perm].
    + now apply insertDesc_sorted.
Qed.

Lemma sortDescRev_sorts : sortsBySizeDesc sortDescRev.
Proof.
  intros l. unfold sortDescRev. destruct (sortDesc_sorts (rev l)) as [HP HS].
  split; [|exact HS].
  eapply perm_trans; [apply Permutation_rev | exact HP].
Qed.

(** What [calculatePacks] leaves in [c.packQuantities] is the allocation for
    the sorted sizes. *)
Lemma calculatePacks_Allocate sortSlice c :
  plan (calculatePacks sortSlice c) =
  Allocate (map Size (sortSlice (packs c))) (items c).
Proof.
  unfold calculatePacks, Allocate. cbn [packs items currentPack packQuantities].
  apply agree_plan.
  replace (length (catalog (map Size (sortSlice (packs c)))))
    with (length (sortSlice (packs c)))
    by (unfold catalog; now rewrite !length_map).
  apply calculatePacksRecursive_agree.
  split; simpl; [now rewrite Size_catalog | reflexivity].
Qed.

(** C9: two invocations of [calculatePacks] on the same number of items and
    the same sizes end with the same plan, entry for entry, whichever way the
    sort arranges packs of equal size and whatever an earlier invocation left
    behind; invoking it again on the receiver it returned repeats the plan. *)
Theorem calculatePacks_deterministic sort1 sort2 c1 c2 :
  sortsBySizeDesc sort1 -> sortsBySizeDesc sort2 ->
  items c1 = items c2 ->
  Permutation (map Size (packs c1)) (map Size (packs c2)) ->
  plan (calculatePacks sort1 c1) = plan (calculatePacks sort2 c2) /\
  forall c1' n1,
    calculatePacks sort1 c1 = Done (c1', n1) ->
    plan (calculatePacks sort2 c1') = Done (packQuantities c1').
Proof.
  intros H1 H2 Hi HP. split; [now apply calculatePacks_plan|].
  intros c1' n1 E.
  destruct (calculatePacks_packs _ _ _ _ E) as (Hp & _ & Hit).
  transitivity (plan (calculatePacks sort1 c1)); [|now rewrite E].
  apply calculatePacks_plan; auto.
  rewrite Hp. apply Permutation_map, Permutation_sym, H1.
Qed.

Lemma calculatePacks_deterministic_witness :
  plan (calculatePacks sortDesc staleReceiver) =
  plan (calculatePacks sortDescRev freshReceiver) /\
  forall c1' n1,
    calculatePacks sortDesc staleReceiver = Done (c1', n1) ->
    plan (calculatePacks sortDescRev c1') = Done (packQuantities c1').
Proof.
  apply (calculatePacks_deterministic sortDesc sortDescRev staleReceiver freshReceiver).
  - exact sortDesc_sorts.
  - exact sortDescRev_sorts.
  - reflexivity.
  - simpl. apply perm_swap.
Defined.

Example deterministic_plans :
  plan (calculatePacks sortDesc staleReceiver) =
    Done [mkPackQuantity 500 1; mkPackQuantity 250 1] /\
  plan (calculatePacks sortDescRev freshReceiver) =
    Done [mkPackQuantity 500 1; mkPackQuantity 250 1].
Proof. split; reflexivity. Qed.

(** ** Coverage of the demand *)

Lemma shipped_app p1 p2 : shipped (p1 ++ p2) = shipped p1 + shipped p2.
Proof.
  induction p1 as [|e p1 IH]; simpl; [reflexivity|]. rewrite IH. lia.
Qed.

Lemma StronglySorted_nth_error {A} (R : A -> A -> Prop) : forall l i j a b,
  StronglySorted R l -> (i < j)%nat ->
  nth_error l i = Some a -> nth_error l j = Some b -> R a b.
Proof.
  induction l as [|x l IH]; intros i j a b Hs Hij Ha Hb.
  - now destruct i.
  - apply StronglySorted_inv in Hs as [Hs Hall].
    destruct j as [|j]; [lia|]. simpl in Hb.
    destruct i as [|i]; simpl in Ha.
    + injection Ha as <-. rewrite Forall_forall in Hall.
      eapply Hall, nth_error_In, Hb.
    + apply (IH i j a b); auto. lia.
Qed.

Lemma properCatalog_previous l i p q :
  properCatalog l -> index l (i - 1) = Done q -> index l i = Done p ->
  Size p <= Size q.
Proof.
  intros [_ Hs] Hq Hp.
  apply index_Done_iff in Hq as [Hq1 Hq2]. apply index_Done_iff in Hp as [Hp1 Hp2].
  apply (StronglySorted_nth_error bySizeDesc l (Z.to_nat (i - 1)) (Z.to_nat i) q p);
    auto. lia.
Qed.

Lemma properCatalog_index l i p :
  properCatalog l -> index l i = Done p -> 0 < Size p <= GoInt.maxInt.
Proof.
  intros [Hall _] Hp. rewrite Forall_forall in Hall. eapply Hall, index_In, Hp.
Qed.

(** Lines 222-237 when the substitution does not apply: what is left is the
    remainder of the division. *)
Lemma takePacks_plain c n packIndex p :
  index (packs c) packIndex = Done p ->
  0 < Size p <= GoInt.maxInt ->
  0 < n <= GoInt.maxInt ->
  ~ (packIndex = len (packs c) - 1 /\ 0 < n - Size p) ->
  exists c1 added,
    takePacks c n packIndex = Done (c1, n mod Size p) /\
    packs c1 = packs c /\
    packQuantities c1 = packQuantities c ++ added /\
    shipped added = n - n mod Size p.
Proof.
  intros Hp Hs Hn Hno.
  destruct (quo_positive n (Size p) ltac:(lia) ltac:(lia)) as [Hq Hb].
  pose proof (Z.div_mod n (Size p) ltac:(lia)) as Hdm.
  pose proof (Z.mod_pos_bound n (Size p) ltac:(lia)) as Hmb.
  unfold takePacks. rewrite Hp. simpl. rewrite Hq. simpl.
  rewrite sub_positive by lia.
  assert (E : (packIndex =? len (packs c) - 1) && (n - Size p >? 0) = false).
  { destruct (packIndex =? len (packs c) - 1) eqn:E1; [|reflexivity].
    destruct (n - Size p >? 0) eqn:E2; [|reflexivity]. lia. }
  rewrite E. simpl.
  destruct (n / Size p >? 0) eqn:E3.
  - exists (appendQuantity c (mkPackQuantity (Size p) (n / Size p))),
           [mkPackQuantity (Size p) (n / Size p)].
    split; [|split; [reflexivity | split; [reflexivity|]]].
    + do 2 f_equal. unfold GoInt.mul.
      rewrite GoIntFacts.wrap_inRange.
      * rewrite sub_positive by nia. lia.
      * unfold GoInt.inRange, GoInt.minInt, GoInt.maxInt in *. nia.
    + simpl. lia.
  - exists c, []. split; [|split; [reflexivity | split; [now rewrite app_nil_r|]]].
    + do 2 f_equal. assert (n / Size p = 0) by lia. nia.
    + simpl. assert (n / Size p = 0) by lia. nia.
Qed.

(** Lines 222-237 when the substitution applies. *)
Lemma takePacks_substituted c n packIndex p q :
  packIndex = len (packs c) - 1 ->
  index (packs c) packIndex = Done p ->
  index (packs c) (packIndex - 1) = Done q ->
  0 < Size p -> n <= GoInt.maxInt -> 0 < n - Size p ->
  0 < n / Size p /\
  takePacks c n packIndex =
    Done (appendQuantity c (mkPackQuantity (Size q) (n / Size p)),
          GoInt.sub n (GoInt.mul (n / Size p) (Size q))).
Proof.
  intros Hk Hs Hp Hpos Hmax Hgt.
  destruct (quo_positive n (Size p) Hpos ltac:(lia)) as [Hq Hb].
  assert (1 <= n / Size p) by (apply Z.div_le_lower_bound; lia).
  split; [lia|].
  unfold takePacks. rewrite Hs. simpl. rewrite Hq. simpl.
  rewrite sub_positive by lia.
  destruct (packIndex =? len (packs c) - 1) eqn:E1; [|lia].
  destruct (n - Size p >? 0) eqn:E2; [|lia]. simpl.
  rewrite Hp. simpl.
  destruct (n / Size p >? 0) eqn:E3; [|lia]. reflexivity.
Qed.

Lemma substituted_covers n s q n1 :
  0 < s -> s <= q -> 0 < n <= GoInt.maxInt -> 0 < n / s ->
  n1 = GoInt.sub n (GoInt.mul (n / s) q) ->
  (0 < n1 -> n <= q * (n / s) + s * 1) /\ (n1 <= 0 -> n <= q * (n / s)).
Proof.
  intros Hs Hq Hn Hc ->.
  pose proof (Z.div_mod n s ltac:(lia)) as Hdm.
  pose proof (Z.mod_pos_bound n s ltac:(lia)) as Hmb.
  split; [nia|].
  destruct (Z.le_gt_cases (n / s * q) GoInt.maxInt) as [Hfit|Hbig]; [|nia].
  unfold GoInt.mul. rewrite GoIntFacts.wrap_inRange.
  - rewrite sub_positive by nia. nia.
  - unfold GoInt.inRange, GoInt.minInt, GoInt.maxInt in *. nia.
Qed.

(** On a proper catalog of two sizes or more every call returns, and what
    it appends ships at least the items it was given. *)
Lemma calculatePacksRecursive_covers fuel : forall c n packIndex,
  properCatalog (packs c) -> 2 <= len (packs c) ->
  0 < n <= GoInt.maxInt ->
  0 <= packIndex < len (packs c) ->
  len (packs c) - packIndex <= Z.of_nat fuel ->
  exists c' n' added,
    calculatePacksRecursive fuel c n packIndex = Done (c', n') /\
    packQuantities c' = packQuantities c ++ added /\
    n <= shipped added.
Proof.
  induction fuel as [|fuel IH]; intros c n k Hcat Hlen Hn Hk Hfuel; [lia|].
  rewrite calculatePacksRecursive_step by lia.
  destruct (index_inside (packs c) k Hk) as [p Hp].
  pose proof (properCatalog_index _ _ _ Hcat Hp) as Hs.
  pose proof (Z.div_mod n (Size p) ltac:(lia)) as Hdm.
  pose proof (Z.mod_pos_bound n (Size p) ltac:(lia)) as Hmb.
  destruct (Z.eq_dec k (len (packs c) - 1)) as [Hlast|Hnot];
    [destruct (Z.ltb_spec 0 (n - Size p)) as [Hgt|Hle]|].
  - (* last index, substitution *)
    destruct (index_inside (packs c) (k - 1) ltac:(lia)) as [q Hq].
    pose proof (properCatalog_previous _ _ _ _ Hcat Hq Hp) as Hpq.
    destruct (takePacks_substituted c n k p q Hlast Hp Hq ltac:(lia) ltac:(lia) Hgt)
      as [Hcnt ->].
    destruct (substituted_covers n (Size p) (Size q) _ ltac:(lia) Hpq Hn Hcnt eq_refl)
      as [Hpos Hneg].
    simpl bind.
    destruct (Z.gtb_spec (GoInt.sub n (GoInt.mul (n / Size p) (Size q))) 0) as [H1|H1].
    + destruct (Z.ltb_spec k (len (packs c) - 1)) as [H2|H2]; [lia|].
      unfold lastPack. simpl packs. rewrite Hp. simpl.
      eexists _, 0, [mkPackQuantity (Size q) (n / Size p); mkPackQuantity (Size p) 1].
      split; [reflexivity|].
      split; [cbn [packQuantities appendQuantity]; now rewrite <- app_assoc|].
      simpl. specialize (Hpos ltac:(lia)). lia.
    + eexists _, _, [mkPackQuantity (Size q) (n / Size p)].
      split; [reflexivity|]. split; [reflexivity|].
      simpl. specialize (Hneg H1). lia.
  - (* last index, no substitution *)
    destruct (takePacks_plain c n k p Hp Hs Hn ltac:(lia))
      as (c1 & added & -> & Hpk & Hpq & Hsh).
    simpl bind. rewrite Hpk.
    destruct (Z.gtb_spec (n mod Size p) 0) as [H1|H1].
    + destruct (Z.ltb_spec k (len (packs c) - 1)) as [H2|H2]; [lia|].
      unfold lastPack. rewrite Hpk, Hp. simpl.
      eexists _, 0, (added ++ [mkPackQuantity (Size p) 1]).
      split; [reflexivity|]. split; [simpl; now rewrite Hpq, <- app_assoc|].
      rewrite shipped_app. simpl. lia.
    + exists c1, (n mod Size p), added. repeat split; auto. lia.
  - (* before the last index *)
    destruct (takePacks_plain c n k p Hp Hs Hn ltac:(lia))
      as (c1 & added & -> & Hpk & Hpq & Hsh).
    simpl bind. rewrite Hpk.
    destruct (Z.gtb_spec (n mod Size p) 0) as [H1|H1].
    + destruct (Z.ltb_spec k (len (packs c) - 1)) as [H2|H2]; [|lia].
      destruct (IH c1 (n mod Size p) (k + 1)) as (c2 & n2 & added2 & -> & Hpq2 & Hsh2);
        rewrite ?Hpk; auto; try lia.
      simpl. exists c2, (n mod Size p), (added ++ added2).
      split; [reflexivity|]. split; [now rewrite Hpq2, Hpq, <- app_assoc|].
      rewrite shipped_app. lia.
    + exists c1, (n mod Size p), added. repeat split; auto. lia.
Qed.

(** X8: on a catalog of two sizes or more, positive and in descending
    order, [Allocate] returns a plan, and the plan ships at least the
    demand. *)
Lemma Allocate_covers sizes demand :
  (2 <= length sizes)%nat ->
  Forall (fun s => 0 < s <= GoInt.maxInt) sizes ->
  StronglySorted descZ sizes ->
  0 < demand <= GoInt.maxInt ->
  exists p, Allocate sizes demand = Done p /\ demand <= shipped p.
Proof.
  intros Hlen Hpos Hsorted Hd. unfold Allocate.
  cbn [packs items currentPack packQuantities].
  assert (Hl : length (catalog sizes) = length sizes)
    by (unfold catalog; apply length_map).
  destruct (calculatePacksRecursive_covers (S (length (catalog sizes)))
              (mkCalculator (catalog sizes) (mkPack EmptyString 0) demand [])
              demand 0) as (c' & n' & added & -> & Hpq & Hsh);
    cbn [packs]; unfold len; rewrite ?Hl; try lia.
  - split.
    + unfold catalog. apply Forall_map. exact Hpos.
    + unfold catalog. clear -Hsorted.
      induction Hsorted as [|a l Hs IH Hall]; simpl; constructor; [exact IH|].
      apply Forall_map. exact Hall.
  - exists (packQuantities c'). split; [reflexivity|].
    simpl in Hpq. now rewrite Hpq.
Qed.

(** A single size covers a demand up to that size with one pack. *)
Lemma Allocate_single_size_fits s d :
  0 < s <= GoInt.maxInt -> 0 < d <= s ->
  Allocate [s] d = Done [mkPackQuantity s 1].
Proof.
  intros Hs Hd. unfold Allocate. cbn [packs items currentPack packQuantities].
  rewrite calculatePacksRecursive_step by (simpl; unfold len; simpl; lia).
  destruct (quo_positive d s ltac:(lia) ltac:(lia)) as [Hq Hb].
  unfold takePacks. cbn [packs]. unfold index at 1. simpl. rewrite Hq. simpl.
  rewrite sub_positive by lia.
  destruct (d - s >? 0) eqn:E; [lia|]. simpl.
  destruct (Z.eq_dec d s) as [->|Hne].
  - rewrite Z.div_same by lia. simpl.
    unfold GoInt.mul. rewrite Z.mul_1_l.
    rewrite GoIntFacts.wrap_inRange
      by (unfold GoInt.inRange, GoInt.minInt, GoInt.maxInt in *; lia).
    rewrite sub_positive by lia. rewrite Z.sub_diag. reflexivity.
  - rewrite Z.div_small by lia. simpl.
    destruct (d >? 0) eqn:E2; [|lia]. reflexivity.
Qed.

(** The substitution ships far more than asked: 751 items on the sizes
    1000 and 250 are served by three packs of 1000. *)
Example substitution_overships :
  Allocate [1000; 250] 751 = Done [mkPackQuantity 1000 3] /\
  shipped [mkPackQuantity 1000 3] = 3000.
Proof. split; reflexivity. Qed.

(** * Further properties of the allocation *)

(** ** How a call that returns went *)

Lemma calculatePacksRecursive_Done fuel c n packIndex c' n' :
  calculatePacksRecursive (S fuel) c n packIndex = Done (c', n') ->
  ((n <= 0 \/ len (packs c) <= packIndex) /\ c' = c /\ n' = n)
  \/ (0 < n /\ packIndex < len (packs c) /\
      exists c1 n1,
        takePacks c n packIndex = Done (c1, n1) /\
        ((n1 <= 0 /\ c' = c1 /\ n' = n1)
         \/ (0 < n1 /\ packIndex < len (packs c) - 1 /\ n' = n1 /\
             exists n2, calculatePacksRecursive fuel c1 n1 (packIndex + 1) = Done (c', n2))
         \/ (0 < n1 /\ len (packs c) - 1 <= packIndex /\
             lastPack c1 packIndex = Done (c', n')))).
Proof.
  intros H.
  destruct (Z.leb_spec n 0) as [Hn|Hn];
    [|destruct (Z.ltb_spec packIndex (len (packs c))) as [Hk|Hk]].
  - rewrite calculatePacksRecursive_guard in H by auto. injection H as <- <-. auto.
  - right. split; [exact Hn|]. split; [exact Hk|].
    rewrite calculatePacksRecursive_step in H by auto.
    destruct (takePacks c n packIndex) as [[c1 n1]| |] eqn:Et; simpl in H;
      try discriminate.
    destruct (takePacks_frame _ _ _ _ _ Et) as (Hp & _).
    exists c1, n1. split; [reflexivity|]. rewrite Hp in H.
    destruct (Z.gtb_spec n1 0) as [H1|H1].
    + destruct (Z.ltb_spec packIndex (len (packs c) - 1)) as [H2|H2].
      * right. left.
        destruct (calculatePacksRecursive fuel c1 n1 (packIndex + 1)) as [[c2 n2]| |];
          simpl in H; try discriminate.
        injection H as <- <-. repeat split; try lia. now exists n2.
      * right. right. repeat split; auto; lia.
    + left. injection H as <- <-. repeat split; auto.
  - rewrite calculatePacksRecursive_guard in H by auto. injection H as <- <-. auto.
Qed.

(** ** The two ways to panic *)

Lemma takePacks_Panic c n packIndex e :
  0 <= packIndex < len (packs c) ->
  takePacks c n packIndex = Panic e ->
  (e = DivideByZero /\ exists p, In p (packs c) /\ Size p = 0)
  \/ (e = IndexOutOfRange /\ len (packs c) = 1).
Proof.
  intros Hk. unfold takePacks.
  destruct (index_inside (packs c) packIndex Hk) as [p Hp]. rewrite Hp. simpl.
  unfold quo. destruct (Z.eqb_spec (Size p) 0) as [Hz|Hz]; simpl.
  - intros [= <-]. left. split; [reflexivity|]. exists p. split; [|exact Hz].
    eapply index_In, Hp.
  - destruct (Z.eqb_spec packIndex (len (packs c) - 1)) as [Hlast|Hlast]; simpl.
    + destruct (GoInt.sub n (Size p) >? 0).
      * destruct (Z.eq_dec packIndex 0) as [H0|H0].
        -- assert (index (packs c) (packIndex - 1) = Panic IndexOutOfRange) as ->.
           { unfold index. destruct (packIndex - 1 <? 0) eqn:E; [reflexivity | lia]. }
           simpl. intros [= <-]. right. split; [reflexivity | lia].
        -- destruct (index_inside (packs c) (packIndex - 1) ltac:(lia)) as [q ->].
           simpl. destruct (_ >? 0); discriminate.
      * simpl. destruct (_ >? 0); discriminate.
    + destruct (_ >? 0); discriminate.
Qed.

Lemma calculatePacksRecursive_Panic fuel : forall c n packIndex e,
  0 <= packIndex ->
  calculatePacksRecursive fuel c n packIndex = Panic e ->
  (e = DivideByZero /\ exists p, In p (packs c) /\ Size p = 0)
  \/ (e = IndexOutOfRange /\ len (packs c) = 1).
Proof.
  induction fuel as [|fuel IH]; intros c n k e Hk0 H; [discriminate|].
  destruct (Z.leb_spec n 0) as [Hn|Hn];
    [|destruct (Z.ltb_spec k (len (packs c))) as [Hk|Hk]].
  - rewrite calculatePacksRecursive_guard in H by auto. discriminate.
  - rewrite calculatePacksRecursive_step in H by auto.
    destruct (takePacks c n k) as [[c1 n1]| |] eqn:Et; simpl in H; try discriminate.
    + destruct (takePacks_frame _ _ _ _ _ Et) as (Hp & _). rewrite Hp in H.
      destruct (n1 >? 0); [|discriminate].
      destruct (Z.ltb_spec k (len (packs c) - 1)) as [H2|H2].
      * destruct (calculatePacksRecursive fuel c1 n1 (k + 1)) as [[c2 n2]| |] eqn:Er;
          simpl in H; try discriminate.
        injection H as ->. rewrite <- Hp. apply (IH c1 n1 (k + 1)); [lia | exact Er].
      * unfold lastPack in H. rewrite Hp in H.
        destruct (index_inside (packs c) k ltac:(lia)) as [q Hq].
        rewrite Hq in H. discriminate.
    + injection H as ->. apply (takePacks_Panic c n k); [lia | exact Et].
  - rewrite calculatePacksRecursive_guard in H by auto. discriminate.
Qed.

(** X1: [Allocate] panics in two situations only: on a division by a pack
    of size 0, and on the read of [c.packs[-1]] when the catalog has a
    single pack. *)
Theorem Allocate_panics sizes demand e :
  Allocate sizes demand = Panic e ->
  (e = DivideByZero /\ In 0 sizes) \/ (e = IndexOutOfRange /\ length sizes = 1%nat).
Proof.
  unfold Allocate, plan. cbn [packs items currentPack packQuantities].
  destruct (calculatePacksRecursive _ _ _ _) as [[c' n']| |] eqn:E; simpl;
    try discriminate.
  intros [= ->].
  apply calculatePacksRecursive_Panic in E; [|lia]. cbn [packs] in E.
  destruct E as [(-> & q & Hin & Hz) | (-> & Hlen)]; [left | right];
    (split; [reflexivity|]).
  - rewrite <- Hz, <- (Size_catalog sizes). now apply in_map.
  - unfold len, catalog in Hlen. rewrite length_map in Hlen. lia.
Qed.

Lemma Allocate_panics_witness :
  (IndexOutOfRange = DivideByZero /\ In 0 [250]) \/
  (IndexOutOfRange = IndexOutOfRange /\ length [250] = 1%nat).
Proof.
  apply (Allocate_panics [250] 251 IndexOutOfRange). reflexivity.
Defined.

(** ** The size of the plan *)

Lemma calculatePacksRecursive_appends fuel : forall c n packIndex c' n',
  calculatePacksRecursive fuel c n packIndex = Done (c', n') ->
  exists added,
    packQuantities c' = packQuantities c ++ added /\
    Z.of_nat (length added) <= Z.max 0 (len (packs c) - packIndex + 1).
Proof.
  induction fuel as [|fuel IH]; intros c n k c' n' H; [discriminate|].
  apply calculatePacksRecursive_Done in H.
  destruct H as [(_ & -> & _) | (Hn & Hk & c1 & n1 & Ht & H)].
  - exists []. rewrite app_nil_r. split; [reflexivity | simpl; lia].
  - destruct (takePacks_Done _ _ _ _ _ Ht) as [p cnt sz _ _ _ Hrec].
    assert (H1 : exists a1, packQuantities c1 = packQuantities c ++ a1 /\
                            (length a1 <= 1)%nat /\ packs c1 = packs c).
    { destruct Hrec as [(_ & -> & _) | (_ & -> & _)].
      - eexists [_]. simpl. auto.
      - exists []. rewrite app_nil_r. auto. }
    destruct H1 as (a1 & Hq1 & Hl1 & Hp1).
    destruct H as [(_ & -> & _) | [(_ & Hlt & _ & n2 & Hr) | (_ & Hge & Hl)]].
    + exists a1. split; [exact Hq1 | lia].
    + destruct (IH _ _ _ _ _ Hr) as (a2 & Hq2 & Hl2). rewrite Hp1 in Hl2.
      exists (a1 ++ a2). split; [now rewrite Hq2, Hq1, app_assoc|].
      rewrite length_app. lia.
    + destruct (lastPack_Done _ _ _ _ Hl) as (q & _ & -> & _).
      exists (a1 ++ [mkPackQuantity (Size q) 1]).
      split; [simpl; now rewrite Hq1, app_assoc|].
      rewrite length_app. simpl. lia.
Qed.

(** X2: a plan has at most one entry more than the catalog has packs. *)
Theorem plan_length sizes demand p :
  Allocate sizes demand = Done p -> (length p <= length sizes + 1)%nat.
Proof.
  unfold Allocate, plan. cbn [packs items currentPack packQuantities].
  destruct (calculatePacksRecursive _ _ _ _) as [[c' n']| |] eqn:E; simpl;
    try discriminate.
  intros [= <-].
  apply calculatePacksRecursive_appends in E. destruct E as (added & Hq & Hl).
  cbn [packs packQuantities] in Hq, Hl. simpl in Hq. subst added.
  unfold len, catalog in Hl. rewrite length_map in Hl. lia.
Qed.

Lemma plan_length_witness :
  (length [mkPackQuantity 500 1; mkPackQuantity 250 1] <= length referenceCatalog + 1)%nat.
Proof.
  apply (plan_length referenceCatalog 501). reflexivity.
Defined.

(** The bound is met when the product of the substituted size and the
    count leaves the range of [int]: the deduction then wraps around and the
    last pack is added on top. *)
Example plan_length_reached :
  Allocate [2 ^ 62; 1] GoInt.maxInt =
    Done [mkPackQuantity (2 ^ 62) 1; mkPackQuantity (2 ^ 62) (2 ^ 62 - 1);
          mkPackQuantity 1 1].
Proof. vm_compute. reflexivity. Qed.

(** ** The order of the entries *)

Lemma sorted_previous l i p q :
  StronglySorted bySizeDesc l ->
  index l (i - 1) = Done q -> index l i = Done p -> Size p <= Size q.
Proof.
  intros Hs Hq Hp.
  apply index_Done_iff in Hq as [Hq1 Hq2]. apply index_Done_iff in Hp as [Hp1 Hp2].
  apply (StronglySorted_nth_error bySizeDesc l (Z.to_nat (i - 1)) (Z.to_nat i) q p);
    auto. lia.
Qed.

Lemma index_unique {A} (l : list A) i a b :
  index l i = Done a -> index l i = Done b -> a = b.
Proof. congruence. Qed.

Lemma calculatePacksRecursive_descending fuel : forall c n packIndex c' n',
  StronglySorted bySizeDesc (packs c) ->
  calculatePacksRecursive fuel c n packIndex = Done (c', n') ->
  exists added,
    packQuantities c' = packQuantities c ++ added /\
    StronglySorted descZ (map Pack_ added) /\
    forall q, index (packs c) (packIndex - 1) = Done q ->
              Forall (fun e => Pack_ e <= Size q) added.
Proof.
  induction fuel as [|fuel IH]; intros c n k c' n' Hs H; [discriminate|].
  apply calculatePacksRecursive_Done in H.
  destruct H as [(_ & -> & _) | (Hn & Hk & c1 & n1 & Ht & H)].
  { exists []. rewrite app_nil_r. repeat split; constructor. }
  destruct (takePacks_Done _ _ _ _ _ Ht) as [p cnt sz Hp _ Hsub Hrec].
  assert (Hsz : Size p <= sz /\
                (k < len (packs c) - 1 -> sz = Size p) /\
                forall q, index (packs c) (k - 1) = Done q -> sz <= Size q).
  { destruct Hsub as [(Hl & _ & prev & Hprev & ->) | (_ & ->)].
    - split; [eapply sorted_previous; eauto|]. split; [lia|].
      intros q Hq. rewrite (index_unique _ _ _ _ Hq Hprev). lia.
    - split; [lia|]. split; [reflexivity|].
      intros q Hq. eapply sorted_previous; eauto. }
  destruct Hsz as (Hge & Hplain & Hbound).
  assert (H1 : exists a1, packQuantities c1 = packQuantities c ++ a1 /\
                          packs c1 = packs c /\
                          Forall (fun e => Pack_ e = sz) a1 /\ (length a1 <= 1)%nat).
  { destruct Hrec as [(_ & -> & _) | (_ & -> & _)].
    - eexists [_]. simpl. repeat split; auto.
    - exists []. rewrite app_nil_r. repeat split; auto. }
  destruct H1 as (a1 & Hq1 & Hp1 & Ha1 & Hl1).
  assert (Hsorted1 : forall rest,
             StronglySorted descZ (map Pack_ rest) ->
             Forall (fun e => Pack_ e <= sz) rest ->
             StronglySorted descZ (map Pack_ (a1 ++ rest))).
  { intros rest Hr Hb. destruct a1 as [|e1 [|e2 a1]]; simpl in *; try lia; auto.
    constructor; [exact Hr|]. apply Forall_map.
    apply Forall_inv in Ha1. rewrite Ha1. exact Hb. }
  assert (Hbound1 : forall q, index (packs c) (k - 1) = Done q ->
                              Forall (fun e => Pack_ e <= Size q) a1).
  { intros q Hq. eapply Forall_impl; [|exact Ha1].
    intros e ->. now apply Hbound. }
  destruct H as [(_ & -> & _) | [(_ & Hlt & _ & n2 & Hr) | (_ & Hge' & Hl)]].
  - exists a1. split; [exact Hq1|]. split; [|exact Hbound1].
    rewrite <- (app_nil_r a1). apply Hsorted1; constructor.
  - destruct (IH _ _ _ _ _ ltac:(rewrite Hp1; exact Hs) Hr) as (a2 & Hq2 & Hs2 & Hb2).
    rewrite Hp1 in Hb2. replace (k + 1 - 1) with k in Hb2 by lia.
    specialize (Hb2 p Hp). rewrite <- (Hplain Hlt) in Hb2.
    exists (a1 ++ a2). split; [now rewrite Hq2, Hq1, app_assoc|].
    split; [now apply Hsorted1|].
    intros q Hq. apply Forall_app. split; [now apply Hbound1|].
    eapply Forall_impl; [|exact Hb2]. intros e He. simpl in He.
    specialize (Hbound q Hq). lia.
  - destruct (lastPack_Done _ _ _ _ Hl) as (p' & Hp' & -> & _).
    rewrite Hp1 in Hp'. rewrite (index_unique _ _ _ _ Hp' Hp).
    exists (a1 ++ [mkPackQuantity (Size p) 1]).
    split; [simpl; now rewrite Hq1, app_assoc|].
    split; [apply Hsorted1; repeat constructor; simpl; lia|].
    intros q Hq. apply Forall_app. split; [now apply Hbound1|].
    repeat constructor. simpl. eapply sorted_previous; eauto.
Qed.

(** X3: on a catalog in descending order the pack sizes of a plan come in
    descending order too (equal sizes may follow one another). *)
Theorem plan_descending sizes demand p :
  StronglySorted descZ sizes ->
  Allocate sizes demand = Done p ->
  StronglySorted descZ (map Pack_ p).
Proof.
  intros Hs. unfold Allocate, plan. cbn [packs items currentPack packQuantities].
  destruct (calculatePacksRecursive _ _ _ _) as [[c' n']| |] eqn:E; simpl;
    try discriminate.
  intros [= <-].
  apply calculatePacksRecursive_descending in E.
  - destruct E as (added & Hq & Hsorted & _). simpl in Hq. now rewrite Hq.
  - cbn [packs]. unfold catalog. clear -Hs.
    induction Hs as [|a l Hs IH Hall]; simpl; constructor; [exact IH|].
    apply Forall_map. exact Hall.
Qed.

Lemma plan_descending_witness :
  StronglySorted descZ (map Pack_ [mkPackQuantity 500 1; mkPackQuantity 500 1]).
Proof.
  apply (plan_descending [500; 250] 751).
  - repeat constructor. unfold descZ. lia.
  - reflexivity.
Defined.

(** ** Orders and sizes *)

Lemma index_catalog_middle l1 s l2 :
  index (catalog (l1 ++ s :: l2)) (len l1) = Done (mkPack EmptyString s).
Proof.
  apply index_Done_iff. unfold len, catalog. rewrite length_map, length_app. simpl.
  split; [lia|]. rewrite Nat2Z.id, nth_error_map, nth_error_app2 by lia.
  now rewrite Nat.sub_diag.
Qed.

Lemma len_catalog l : len (catalog l) = len l.
Proof. unfold len, catalog. now rewrite length_map. Qed.

Lemma len_app {A} (l1 l2 : list A) : len (l1 ++ l2) = len l1 + len l2.
Proof. unfold len. rewrite length_app. lia. Qed.

Lemma len_cons {A} (a : A) (l : list A) : len (a :: l) = 1 + len l.
Proof. unfold len. simpl length. lia. Qed.

(** Lines 222-237 without the substitution, in full. *)
Lemma takePacks_plain_eq c n packIndex p :
  index (packs c) packIndex = Done p ->
  0 < Size p <= GoInt.maxInt ->
  0 < n <= GoInt.maxInt ->
  ~ (packIndex = len (packs c) - 1 /\ 0 < n - Size p) ->
  takePacks c n packIndex =
    Done (if n / Size p >? 0
          then (appendQuantity c (mkPackQuantity (Size p) (n / Size p)), n mod Size p)
          else (c, n)).
Proof.
  intros Hp Hs Hn Hno.
  destruct (quo_positive n (Size p) ltac:(lia) ltac:(lia)) as [Hq Hb].
  pose proof (Z.div_mod n (Size p) ltac:(lia)) as Hdm.
  pose proof (Z.mod_pos_bound n (Size p) ltac:(lia)) as Hmb.
  unfold takePacks. rewrite Hp. simpl. rewrite Hq. simpl.
  rewrite sub_positive by lia.
  assert (E : (packIndex =? len (packs c) - 1) && (n - Size p >? 0) = false).
  { destruct (packIndex =? len (packs c) - 1) eqn:E1; [|reflexivity].
    destruct (n - Size p >? 0) eqn:E2; [|reflexivity]. lia. }
  rewrite E. simpl.
  destruct (n / Size p >? 0) eqn:E3; [|reflexivity].
  do 2 f_equal. unfold GoInt.mul. rewrite GoIntFacts.wrap_inRange.
  - rewrite sub_positive by nia. lia.
  - unfold GoInt.inRange, GoInt.minInt, GoInt.maxInt in *. nia.
Qed.

Lemma plan_keeps_items r n :
  plan ('(c, _) <- r ;; Done (c, n)) = plan r.
Proof. destruct r as [[c m]| |]; reflexivity. Qed.

(** Packs larger than the order are passed over, a call each. *)
Lemma skip_larger : forall l l1 rest c d fuel,
  packs c = catalog (l1 ++ l ++ rest) ->
  rest <> [] ->
  Forall (fun s => d < s <= GoInt.maxInt) l ->
  0 < d ->
  plan (calculatePacksRecursive (length l + fuel) c d (len l1)) =
  plan (calculatePacksRecursive fuel c d (len l1 + len l)).
Proof.
  induction l as [|s l IH]; intros l1 rest c d fuel Hp Hrest Hall Hd.
  - simpl. now rewrite Z.add_0_r.
  - apply Forall_cons_iff in Hall as [Hs Hall].
    change (length (s :: l) + fuel)%nat with (S (length l + fuel)).
    assert (Hlen : len l1 < len (packs c) - 1).
    { rewrite Hp, len_catalog, !len_app, len_cons.
      destruct rest; [now elim Hrest|]. rewrite len_cons.
      unfold len. lia. }
    rewrite calculatePacksRecursive_step by lia.
    rewrite (takePacks_plain_eq c d (len l1) (mkPack EmptyString s));
      [| rewrite Hp; apply index_catalog_middle | simpl; lia | lia | lia].
    simpl Size. rewrite Z.div_small by lia. simpl.
    destruct (Z.gtb_spec d 0) as [_|?]; [|lia].
    destruct (Z.ltb_spec (len l1) (len (packs c) - 1)) as [_|?]; [|lia].
    rewrite plan_keeps_items.
    replace (len l1 + 1) with (len (l1 ++ [s])) by (rewrite len_app; reflexivity).
    rewrite (IH (l1 ++ [s]) rest); auto.
    + f_equal. f_equal. rewrite len_app, len_cons. unfold len. simpl. lia.
    + now rewrite <- app_assoc.
Qed.

(** X4: a pack of size 0 that an order reaches makes the calculation panic:
    the demand is divided by the size before anything is checked. An order
    smaller than every pack listed before such a pack reaches it. *)
Theorem zero_size_panics l rest d :
  Forall (fun s => d < s <= GoInt.maxInt) l ->
  0 < d ->
  Allocate (l ++ 0 :: rest) d = Panic DivideByZero.
Proof.
  intros Hall Hd. unfold Allocate. cbn [packs items currentPack packQuantities].
  replace (S (length (catalog (l ++ 0 :: rest))))
    with (length l + S (S (length rest)))%nat
    by (unfold catalog; rewrite length_map, length_app; simpl; lia).
  change (calculatePacksRecursive (length l + S (S (length rest))) ?c d 0)
    with (calculatePacksRecursive (length l + S (S (length rest))) c d (len (@nil Z))).
  rewrite (skip_larger l [] (0 :: rest)); auto; [|discriminate].
  change (len [] + len l) with (len ([] ++ l)). simpl app.
  rewrite calculatePacksRecursive_step.
  - unfold takePacks. cbn [packs]. rewrite index_catalog_middle. reflexivity.
  - exact Hd.
  - cbn [packs]. rewrite len_catalog, len_app, len_cons. unfold len. lia.
Qed.

Lemma zero_size_panics_witness :
  Allocate ([500; 250] ++ 0 :: []) 100 = Panic DivideByZero.
Proof.
  apply (zero_size_panics [500; 250] [] 100).
  - repeat constructor; discriminate.
  - reflexivity.
Defined.

Lemma div_of_small d s : 0 < d <= s -> 0 < d / s -> d = s /\ d / s = 1 /\ d mod s = 0.
Proof.
  intros Hd Hq.
  destruct (Z.eq_dec d s) as [->|Hne].
  - rewrite Z.div_same, Z.mod_same by lia. auto.
  - rewrite Z.div_small in Hq by lia. lia.
Qed.

Lemma small_order_run : forall l l1 c d a fuel,
  packs c = catalog (l1 ++ l ++ [a]) ->
  Forall (fun s => a <= s <= GoInt.maxInt) l ->
  0 < d <= a -> a <= GoInt.maxInt ->
  plan (calculatePacksRecursive (S (length l) + fuel) c d (len l1)) =
  Done (packQuantities c ++ [mkPackQuantity a 1]).
Proof.
  induction l as [|s l IH]; intros l1 c d a fuel Hp Hall Hd Ha.
  - change ([] ++ [a]) with [a] in Hp.
    assert (Hlast : len l1 = len (packs c) - 1).
    { rewrite Hp. unfold len, catalog. rewrite length_map, !length_app. simpl. lia. }
    simpl plus. rewrite calculatePacksRecursive_step by lia.
    rewrite (takePacks_plain_eq c d (len l1) (mkPack EmptyString a));
      [| rewrite Hp; apply index_catalog_middle | simpl; lia | lia | simpl; lia].
    simpl Size. destruct (Z.gtb_spec (d / a) 0) as [Hq|Hq].
    + destruct (div_of_small d a Hd Hq) as (_ & -> & ->). reflexivity.
    + simpl. destruct (Z.gtb_spec d 0) as [_|?]; [|lia].
      destruct (Z.ltb_spec (len l1) (len (packs c) - 1)) as [?|_]; [lia|].
      unfold lastPack. rewrite Hp, index_catalog_middle. reflexivity.
  - apply Forall_cons_iff in Hall as [Hs Hall].
    assert (Hlen : len l1 < len (packs c) - 1).
    { rewrite Hp. unfold len, catalog. rewrite length_map, !length_app. simpl. lia. }
    change (S (length (s :: l)) + fuel)%nat with (S (S (length l) + fuel)).
    rewrite calculatePacksRecursive_step by lia.
    rewrite (takePacks_plain_eq c d (len l1) (mkPack EmptyString s));
      [| rewrite Hp; apply index_catalog_middle | simpl; lia | lia | lia].
    simpl Size. destruct (Z.gtb_spec (d / s) 0) as [Hq|Hq].
    + destruct (div_of_small d s ltac:(lia) Hq) as (Hds & -> & ->).
      replace a with s by lia. reflexivity.
    + simpl. destruct (Z.gtb_spec d 0) as [_|?]; [|lia].
      destruct (Z.ltb_spec (len l1) (len (packs c) - 1)) as [_|?]; [|lia].
      rewrite plan_keeps_items.
      replace (len l1 + 1) with (len (l1 ++ [s])) by (rewrite len_app; reflexivity).
      apply (IH (l1 ++ [s])); auto. now rewrite <- app_assoc.
Qed.

(** X5: an order of at most the smallest pack is served by one smallest
    pack, whatever larger packs the catalog lists before it. *)
Theorem small_order l a d :
  Forall (fun s => a <= s <= GoInt.maxInt) l ->
  0 < d <= a -> a <= GoInt.maxInt ->
  Allocate (l ++ [a]) d = Done [mkPackQuantity a 1].
Proof.
  intros Hall Hd Ha. unfold Allocate. cbn [packs items currentPack packQuantities].
  replace (S (length (catalog (l ++ [a])))) with (S (length l) + 1)%nat
    by (unfold catalog; rewrite length_map, length_app; simpl; lia).
  change 0 with (len (@nil Z)) at 2.
  rewrite (small_order_run l [] _ d a 1); auto.
Qed.

Lemma small_order_witness :
  Allocate ([5000; 2000; 1000; 500] ++ [250]) 250 = Done [mkPackQuantity 250 1].
Proof.
  apply (small_order [5000; 2000; 1000; 500] 250 250).
  - repeat constructor; discriminate.
  - split; [reflexivity | discriminate].
  - discriminate.
Defined.

(** X6: an order larger than the smallest pack and smaller than all the
    others is served from the second smallest size, in as many packs as
    smallest packs fit in the order (provided that many packs of the second
    smallest size are still an [int]). *)
Theorem between_two_smallest l b a d :
  Forall (fun s => d < s <= GoInt.maxInt) l ->
  d < b <= GoInt.maxInt ->
  0 < a < d ->
  d / a * b <= GoInt.maxInt ->
  Allocate (l ++ [b; a]) d = Done [mkPackQuantity b (d / a)].
Proof.
  intros Hall Hb Ha Hfit. unfold Allocate.
  cbn [packs items currentPack packQuantities].
  set (c := mkCalculator (catalog (l ++ [b; a])) (mkPack EmptyString 0) d []).
  replace (S (length (catalog (l ++ [b; a])))) with (length (l ++ [b]) + 2)%nat
    by (unfold catalog; rewrite length_map, !length_app; simpl; lia).
  change 0 with (len (@nil Z)).
  rewrite (skip_larger (l ++ [b]) [] [a]);
    [| simpl; now rewrite <- app_assoc | discriminate
     | apply Forall_app; split; [exact Hall | repeat constructor; lia] | lia].
  change (len [] + len (l ++ [b])) with (len (l ++ [b])).
  assert (Hlast : len (l ++ [b]) = len (packs c) - 1).
  { unfold c, len, catalog. cbn [packs]. rewrite length_map, !length_app. simpl. lia. }
  assert (Hpa : index (packs c) (len (l ++ [b])) = Done (mkPack EmptyString a)).
  { unfold c. cbn [packs].
    replace (l ++ [b; a]) with ((l ++ [b]) ++ a :: []) by now rewrite <- app_assoc.
    apply index_catalog_middle. }
  assert (Hpb : index (packs c) (len (l ++ [b]) - 1) = Done (mkPack EmptyString b)).
  { replace (len (l ++ [b]) - 1) with (len l)
      by (unfold len; rewrite length_app; simpl; lia).
    apply index_catalog_middle. }
  rewrite calculatePacksRecursive_step by lia.
  destruct (takePacks_substituted c d _ _ _ Hlast Hpa Hpb) as [Hcnt ->];
    simpl; try lia.
  simpl in Hcnt.
  assert (Hneg : GoInt.sub d (GoInt.mul (d / a) b) = d - d / a * b).
  { unfold GoInt.mul. rewrite GoIntFacts.wrap_inRange.
    - apply sub_positive; nia.
    - unfold GoInt.inRange, GoInt.minInt, GoInt.maxInt in *. nia. }
  rewrite Hneg.
  destruct (Z.gtb_spec (d - d / a * b) 0) as [?|_]; [nia|]. reflexivity.
Qed.

Lemma between_two_smallest_witness :
  Allocate ([5000; 2000] ++ [1000; 250]) 751 = Done [mkPackQuantity 1000 (751 / 250)].
Proof.
  apply (between_two_smallest [5000; 2000] 1000 250 751).
  - repeat constructor; discriminate.
  - split; [reflexivity | discriminate].
  - split; reflexivity.
  - discriminate.
Defined.

(** X7: on a catalog of two packs or more an order that is a multiple of
    the first size is served from that size alone, and exactly. *)
Theorem multiple_of_first_size s0 s1 rest q :
  0 < s0 -> 0 < q -> q * s0 <= GoInt.maxInt ->
  Allocate (s0 :: s1 :: rest) (q * s0) = Done [mkPackQuantity s0 q] /\
  shipped [mkPackQuantity s0 q] = q * s0.
Proof.
  intros Hs Hq Hfit. split; [|simpl; lia].
  unfold Allocate. cbn [packs items currentPack packQuantities].
  rewrite calculatePacksRecursive_step
    by (try (cbn [packs]; rewrite len_catalog, !len_cons; unfold len); nia).
  rewrite (takePacks_plain_eq _ (q * s0) 0 (mkPack EmptyString s0));
    [| reflexivity | simpl; nia | nia
     | cbn [packs]; rewrite len_catalog, !len_cons; unfold len; lia].
  simpl Size. rewrite Z.div_mul, Z.mod_mul by lia.
  destruct (Z.gtb_spec q 0) as [_|?]; [|lia]. reflexivity.
Qed.

Lemma multiple_of_first_size_witness :
  Allocate (5000 :: 2000 :: [1000; 500; 250]) (3 * 5000) = Done [mkPackQuantity 5000 3] /\
  shipped [mkPackQuantity 5000 3] = 3 * 5000.
Proof.
  apply (multiple_of_first_size 5000 2000 [1000; 500; 250] 3);
    [reflexivity | reflexivity | discriminate].
Defined.

(** ** Coverage, for the caller *)

Lemma Allocate_covers_witness :
  exists p, Allocate referenceCatalog 12001 = Done p /\ 12001 <= shipped p.
Proof.
  apply (Allocate_covers referenceCatalog 12001).
  - simpl. lia.
  - repeat constructor; discriminate.
  - repeat constructor; discriminate.
  - split; [reflexivity | discriminate].
Defined.

(** X9: [calculatePacks] on a receiver with two packs or more, of positive
    sizes listed in any order, and a positive number of items: the handler
    returns, [c.packs] is left sorted, and the plan left in
    [c.packQuantities] ships at least [c.items], whatever was there before. *)
Theorem calculatePacks_covers sortSlice c :
  sortsBySizeDesc sortSlice ->
  (2 <= length (packs c))%nat ->
  Forall (fun p => 0 < Size p <= GoInt.maxInt) (packs c) ->
  0 < items c <= GoInt.maxInt ->
  exists c' n',
    calculatePacks sortSlice c = Done (c', n') /\
    packs c' = sortSlice (packs c) /\
    items c <= shipped (packQuantities c').
Proof.
  intros Hsort Hlen Hpos Hitems.
  destruct (Hsort (packs c)) as [HP HS].
  pose proof (Permutation_length HP) as Hl.
  unfold calculatePacks. cbn [packs items currentPack packQuantities].
  set (c0 := mkCalculator (sortSlice (packs c)) (currentPack c) (items c) []).
  destruct (calculatePacksRecursive_covers (S (length (sortSlice (packs c)))) c0
              (items c) 0) as (c' & n' & added & E & Hq & Hsh).
  - split; [|exact HS]. eapply Permutation_Forall; [exact HP | exact Hpos].
  - unfold c0, len. cbn [packs]. lia.
  - exact Hitems.
  - unfold c0, len. cbn [packs]. lia.
  - unfold c0, len. cbn [packs]. lia.
  - exists c', n'. split; [exact E|]. split.
    + apply calculatePacksRecursive_frame in E. now destruct E as (-> & _).
    + simpl in Hq. now rewrite Hq.
Qed.

Lemma calculatePacks_covers_witness :
  exists c' n',
    calculatePacks sortDesc staleReceiver = Done (c', n') /\
    packs c' = sortDesc (packs staleReceiver) /\
    items staleReceiver <= shipped (packQuantities c').
Proof.
  apply (calculatePacks_covers sortDesc staleReceiver).
  - exact sortDesc_sorts.
  - simpl. lia.
  - repeat constructor; discriminate.
  - split; [reflexivity | discriminate].
Defined.

(** ** One size after the other *)

Lemma index_cons {A} (x : A) (l : list A) i :
  0 <= i -> index (x :: l) (i + 1) = index l i.
Proof.
  intros Hi. unfold index. rewrite len_cons.
  destruct (Z.ltb_spec (i + 1) 0) as [?|_]; [lia|].
  destruct (Z.ltb_spec i 0) as [?|_]; [lia|].
  destruct (Z.geb_spec (i + 1) (1 + len l)), (Z.geb_spec i (len l)); try lia;
    [reflexivity|]. simpl.
  replace (Z.to_nat (i + 1)) with (S (Z.to_nat i)) by lia. reflexivity.
Qed.

Lemma shifted_len x pre c c' : shifted x pre c c' -> len (packs c) = 1 + len (packs c').
Proof. intros [-> _]. apply len_cons. Qed.

Lemma shifted_append x pre c c' q :
  shifted x pre c c' -> shifted x pre (appendQuantity c q) (appendQuantity c' q).
Proof.
  intros [H1 H2]. split; simpl; [exact H1|]. now rewrite H2, app_assoc.
Qed.

Lemma takePacks_shifted x pre c c' n packIndex :
  shifted x pre c c' -> 0 <= packIndex -> 2 <= len (packs c') ->
  shiftedOutcome x pre (takePacks c n (packIndex + 1)) (takePacks c' n packIndex).
Proof.
  intros Hsh Hk Hlen. pose proof (shifted_len _ _ _ _ Hsh) as Hl.
  unfold takePacks. destruct Hsh as [Hp Hq]. rewrite Hp, index_cons by lia.
  destruct (index (packs c') packIndex) as [p| |];
    cbn [bind shiftedOutcome]; try easy.
  destruct (quo n (Size p)) as [cnt| |]; cbn [bind shiftedOutcome]; try easy.
  assert (E : (packIndex + 1 =? len (x :: packs c') - 1) =
              (packIndex =? len (packs c') - 1)).
  { rewrite len_cons.
    destruct (Z.eqb_spec (packIndex + 1) (1 + len (packs c') - 1)),
             (Z.eqb_spec packIndex (len (packs c') - 1)); lia. }
  rewrite E.
  destruct (Z.eqb_spec packIndex (len (packs c') - 1)) as [Hlast|Hlast]; simpl.
  - destruct (GoInt.sub n (Size p) >? 0).
    + replace (packIndex + 1 - 1) with (packIndex - 1 + 1) by lia.
      rewrite index_cons by lia.
      destruct (index (packs c') (packIndex - 1)) as [q| |]; simpl; try easy.
      destruct (cnt >? 0); simpl; (split; [|reflexivity]).
      * now apply shifted_append.
      * now split.
    + simpl. destruct (cnt >? 0); simpl; (split; [|reflexivity]).
      * now apply shifted_append.
      * now split.
  - destruct (cnt >? 0); simpl; (split; [|reflexivity]).
    + now apply shifted_append.
    + now split.
Qed.

Lemma lastPack_shifted x pre c c' packIndex :
  shifted x pre c c' -> 0 <= packIndex ->
  shiftedOutcome x pre (lastPack c (packIndex + 1)) (lastPack c' packIndex).
Proof.
  intros Hsh Hk. unfold lastPack.
  destruct Hsh as [Hp Hq]. rewrite Hp, index_cons by lia.
  destruct (index (packs c') packIndex) as [p| |]; simpl; try easy.
  split; [|reflexivity]. now apply shifted_append.
Qed.

Lemma calculatePacksRecursive_shifted fuel : forall x pre c c' n packIndex,
  shifted x pre c c' -> 0 <= packIndex -> 2 <= len (packs c') ->
  shiftedOutcome x pre (calculatePacksRecursive fuel c n (packIndex + 1))
                       (calculatePacksRecursive fuel c' n packIndex).
Proof.
  induction fuel as [|fuel IH]; intros x pre c c' n k Hsh Hk Hlen; [exact I|].
  pose proof (shifted_len _ _ _ _ Hsh) as Hl.
  destruct (Z.leb_spec n 0) as [Hn|Hn];
    [|destruct (Z.ltb_spec k (len (packs c'))) as [Hlt|Hge]].
  - rewrite !calculatePacksRecursive_guard by auto. now split.
  - rewrite !calculatePacksRecursive_step by lia.
    pose proof (takePacks_shifted x pre c c' n k Hsh Hk Hlen) as Ht.
    destruct (takePacks c n (k + 1)) as [[d n1]| |],
             (takePacks c' n k) as [[d' n1']| |]; simpl in Ht |- *; try easy.
    destruct Ht as [Hd <-].
    pose proof (shifted_len _ _ _ _ Hd) as Hl1.
    destruct (n1 >? 0); [|now split].
    assert (E : (k + 1 <? len (packs d) - 1) = (k <? len (packs d') - 1)).
    { destruct (Z.ltb_spec (k + 1) (len (packs d) - 1)),
               (Z.ltb_spec k (len (packs d') - 1)); lia. }
    rewrite E.
    destruct (Z.ltb_spec k (len (packs d') - 1)) as [H2|H2];
      [|now apply lastPack_shifted].
    assert (Hlen' : 2 <= len (packs d')) by lia.
    specialize (IH x pre d d' n1 (k + 1) Hd ltac:(lia) Hlen').
    destruct (calculatePacksRecursive fuel d n1 (k + 1 + 1)) as [[e m]| |],
             (calculatePacksRecursive fuel d' n1 (k + 1)) as [[e' m']| |];
      simpl in IH |- *; try easy; destruct IH as [He _]; now split.
  - rewrite !calculatePacksRecursive_guard by lia. now split.
Qed.

Lemma shiftedOutcome_plan x pre r r' :
  shiftedOutcome x pre r r' ->
  plan r = (p <- plan r' ;; Done (pre ++ p)).
Proof.
  destruct r as [[c n]| |], r' as [[c' n']| |]; simpl; try easy.
  - intros [[_ ->] _]. reflexivity.
  - now intros ->.
Qed.

(** X10: when at least two sizes follow the first one, the plan is the
    packs of the first size that fit in the order, followed by the plan of
    the sizes that follow for what is left. (With a single size following
    this fails: the substitution then reads the first size.) *)
Theorem first_size_then_rest s0 tl d :
  (2 <= length tl)%nat ->
  0 < s0 <= GoInt.maxInt -> 0 < d <= GoInt.maxInt ->
  Allocate (s0 :: tl) d =
    (p <- Allocate tl (d mod s0) ;;
     Done ((if d / s0 >? 0 then [mkPackQuantity s0 (d / s0)] else []) ++ p)).
Proof.
  intros Hlen Hs Hd.
  pose proof (Z.mod_pos_bound d s0 ltac:(lia)) as Hmb.
  unfold Allocate. cbn [packs items currentPack packQuantities].
  assert (Hl : len (catalog (s0 :: tl)) = 1 + len tl)
    by (rewrite len_catalog; apply len_cons).
  assert (Hl2 : 2 <= len tl) by (unfold len; lia).
  replace (length (catalog (s0 :: tl))) with (S (length tl))
    by (unfold catalog; now rewrite length_map).
  replace (length (catalog tl)) with (length tl)
    by (unfold catalog; now rewrite length_map).
  rewrite calculatePacksRecursive_step by (cbn [packs]; lia).
  rewrite (takePacks_plain_eq _ d 0 (mkPack EmptyString s0));
    [| reflexivity | exact Hs | exact Hd | cbn [packs]; lia].
  cbn [Size].
  set (pre := if d / s0 >? 0 then [mkPackQuantity s0 (d / s0)] else []).
  set (c' := mkCalculator (catalog tl) (mkPack EmptyString 0) (d mod s0) []).
  assert (Hrun : exists c1,
     (if d / s0 >? 0
      then (appendQuantity
              (mkCalculator (catalog (s0 :: tl)) (mkPack EmptyString 0) d [])
              (mkPackQuantity s0 (d / s0)), d mod s0)
      else (mkCalculator (catalog (s0 :: tl)) (mkPack EmptyString 0) d [], d))
     = (c1, d mod s0) /\
     shifted (mkPack EmptyString s0) pre c1 c' /\ packQuantities c1 = pre).
  { unfold pre. destruct (Z.gtb_spec (d / s0) 0) as [Hq|Hq].
    - eexists. split; [reflexivity|]. split; [split|]; simpl; reflexivity.
    - assert (d / s0 = 0) by (pose proof (Z.div_pos d s0); lia).
      assert (d mod s0 = d) by (pose proof (Z.div_mod d s0); nia).
      eexists. split; [f_equal; symmetry; eassumption|].
      split; [split|]; simpl; reflexivity. }
  destruct Hrun as (c1 & -> & Hsh & Hpre). cbn [bind].
  destruct (Z.gtb_spec (d mod s0) 0) as [Hpos|Hzero].
  - assert (E : (0 <? len (packs c1) - 1) = true).
    { rewrite (shifted_len _ _ _ _ Hsh). unfold c'. cbn [packs].
      rewrite len_catalog. destruct (Z.ltb_spec 0 (1 + len tl - 1)); [reflexivity|lia]. }
    rewrite E, plan_keeps_items.
    rewrite (shiftedOutcome_plan (mkPack EmptyString s0) pre _
               (calculatePacksRecursive (S (length tl)) c' (d mod s0) 0)).
    + reflexivity.
    + apply (calculatePacksRecursive_shifted _ _ _ c1 c' (d mod s0) 0 Hsh); [lia|].
      unfold c'. cbn [packs]. now rewrite len_catalog.
  - rewrite calculatePacksRecursive_guard by lia.
    unfold plan. cbn [bind]. rewrite Hpre. now rewrite app_nil_r.
Qed.

Lemma first_size_then_rest_witness :
  Allocate (5000 :: [2000; 1000; 500; 250]) 12001 =
    (p <- Allocate [2000; 1000; 500; 250] (12001 mod 5000) ;;
     Done ((if 12001 / 5000 >? 0 then [mkPackQuantity 5000 (12001 / 5000)] else [])
           ++ p)).
Proof.
  apply (first_size_then_rest 5000 [2000; 1000; 500; 250] 12001).
  - simpl. lia.
  - split; [reflexivity | discriminate].
  - split; [reflexivity | discriminate].
Defined.

(** With one size following, the first size comes back through the
    substitution and the two sides differ. *)
Example first_size_then_single :
  Allocate [1000; 250] 1751 = Done [mkPackQuantity 1000 1; mkPackQuantity 1000 3] /\
  Allocate [250] (1751 mod 1000) = Panic IndexOutOfRange.
Proof. split; reflexivity. Qed.
